(** * py-ssz: chunk packing, merkleization and offset helpers

    A shallow embedding of [ssz/utils.py] and the properties of its
    packing, merkleization, length-mixing and offset functions.

    Python values are modelled as follows.
    - [bytes] objects are lists of [Byte.byte].
    - Python integers are [Z]; lengths, loop counters, tree layers and list
      indices, which the code only ever produces as non-negative numbers,
      are [nat].
    - A raised exception is the [Raise] outcome of a [result].
    - Code that calls [hash_eth2] runs in the [Hashing] monad, which threads
      the number of [hash_eth2] invocations made so far. *)

From Stdlib Require Import ZArith Lia.
From Stdlib.Strings Require Import Byte.
From stdpp Require Import base list.
From Equations Require Import Equations.

Set Default Proof Using "Type".
Local Open Scope Z_scope.

(** ** Outcomes *)

(** The exception classes that [ssz/utils.py] raises itself or that the
    built-in operations it uses raise. *)
Inductive exn : Type :=
| ValueError
| TypeError
| IndexError
| OverflowError
| StopIteration
| InvariantError.   (* [raise Exception("Invariant: ...")] *)

Inductive result (A : Type) : Type :=
| Ok (a : A)
| Raise (e : exn).
Arguments Ok {A} a.
Arguments Raise {A} e.

Definition rbind {A B} (r : result A) (k : A -> result B) : result B :=
  match r with
  | Ok a => k a
  | Raise e => Raise e
  end.

Declare Scope result_scope.
Delimit Scope result_scope with res.
Notation "x <- r ;; k" := (rbind r (fun x => k))
  (at level 100, r at next level, right associativity) : result_scope.

Definition is_ok {A} (r : result A) : bool :=
  match r with Ok _ => true | Raise _ => false end.

(** ** Byte strings *)

Abbreviation bytes := (list byte).

Definition Z_of_byte (b : byte) : Z := Z.of_N (Byte.to_N b).

Definition byte_of_Z (z : Z) : byte :=
  match Byte.of_N (Z.to_N (z mod 256)) with
  | Some b => b
  | None => x00
  end.

(** [b.ljust(width, fill)]: pad on the right up to [width]; a string that is
    already long enough is returned as it is. *)
Definition ljust (b : bytes) (width : nat) (fill : byte) : bytes :=
  b ++ replicate (width - length b) fill.

(** [b[lo:hi]] for [0 <= lo <= hi]. *)
Definition slice (b : bytes) (lo hi : nat) : bytes :=
  take (hi - lo) (drop lo b).

(** [n.to_bytes(len, 'little')]: [OverflowError] on a negative integer and
    on one that does not fit in [len] bytes. *)
Fixpoint le_digits (len : nat) (n : Z) : bytes :=
  match len with
  | O => []
  | S len' => byte_of_Z n :: le_digits len' (n / 256)
  end.

Definition to_bytes_little (n : Z) (len : nat) : result bytes :=
  if n <? 0 then Raise OverflowError
  else if 256 ^ Z.of_nat len <=? n then Raise OverflowError
  else Ok (le_digits len n).

(** [int.from_bytes(data, 'little')]. *)
Fixpoint from_bytes_little (data : bytes) : Z :=
  match data with
  | [] => 0
  | b :: rest => Z_of_byte b + 256 * from_bytes_little rest
  end.

(** ** Constants of [ssz.constants] *)

(** Modelled from the spec: [ssz/constants.py] is not part of the sources at
    hand; the chunk size is 32 bytes, fixed system-wide. *)
Definition CHUNK_SIZE : nat := 32.

(** Modelled from the spec: the designated empty chunk is 32 zero bytes. *)
Definition EMPTY_CHUNK : bytes := replicate CHUNK_SIZE x00.

(** Modelled from the spec: offsets are 4 bytes, little-endian. *)
Definition OFFSET_SIZE : nat := 4.

Definition ZERO_BYTES32 : bytes := replicate 32 x00.

(** ** Offsets *)

Definition encode_offset (offset : Z) : result bytes :=
  to_bytes_little offset OFFSET_SIZE.

Definition decode_offset (data : bytes) : Z :=
  from_bytes_little data.

(** ** Items per chunk *)

Definition get_items_per_chunk (item_size : Z) : result Z :=
  if item_size <? 0 then Raise ValueError
  else if item_size =? 0 then Ok 1
  else if negb (Z.of_nat CHUNK_SIZE mod item_size =? 0) then Raise ValueError
  else if item_size <=? Z.of_nat CHUNK_SIZE then Ok (Z.of_nat CHUNK_SIZE / item_size)
  else Raise InvariantError.

(** ** The iterator helpers of [toolz] used by [pack] *)

(** [partition(n, xs, pad=pad)] zips [n] references to one iterator over
    [xs] with [zip_longest] and fill value [pad]: consecutive groups of [n]
    elements, the last one filled up with [pad]; no group at all when [n]
    is 0 or [xs] is exhausted. *)
Equations? partition {A : Type} (n : nat) (xs : list A) (pad : A)
  : list (list A) by wf (length xs) lt :=
  partition 0 _ _ := [];
  partition (S m) [] _ := [];
  partition (S m) (x :: rest) pad :=
    (take (S m) (x :: rest) ++ replicate (S m - length (x :: rest)) pad)
      :: partition (S m) (drop (S m) (x :: rest)) pad.
Proof. rewrite length_drop. simpl. lia. Qed.

(** [tuple(take(n, it))] on a generator [it]: the [n] first elements and the
    generator state left behind; [islice] rejects a negative [n]. *)
Definition take_iter {A : Type} (n : Z) (it : list A) : result (list A * list A) :=
  if n <? 0 then Raise ValueError
  else Ok (take (Z.to_nat n) it, drop (Z.to_nat n) it).

(** [first(it)] is [next(iter(it))]. *)
Definition first_iter {A : Type} (it : list A) : result (A * list A) :=
  match it with
  | [] => Raise StopIteration
  | x :: rest => Ok (x, rest)
  end.

(** ** Packing *)

Definition pack (serialized_values : list bytes) : result (list bytes) :=
  match serialized_values with
  | [] => Ok [EMPTY_CHUNK]
  | value0 :: _ =>
      let item_size := Z.of_nat (length value0) in
      (items_per_chunk <- get_items_per_chunk item_size ;;
       let number_of_items := Z.of_nat (length serialized_values) in
       let number_of_chunks :=
         (number_of_items + (items_per_chunk - 1)) / items_per_chunk in
       let chunk_partitions :=
         partition (Z.to_nat items_per_chunk) serialized_values [] in
       let chunks_unpadded := map (@concat byte) chunk_partitions in
       taken <- take_iter (number_of_chunks - 1) chunks_unpadded ;;
       let '(full_chunks, chunks_unpadded) := taken in
       head <- first_iter chunks_unpadded ;;
       let '(last_chunk, chunks_unpadded) := head in
       if (0 <? length chunks_unpadded)%nat then Raise InvariantError
       else Ok (full_chunks ++ [ljust last_chunk CHUNK_SIZE x00]))%res
  end.

Definition pack_bytes (byte_string : bytes) : list bytes :=
  let size := length byte_string in
  if (size =? 0)%nat then [EMPTY_CHUNK]
  else
    let number_of_full_chunks := (size / CHUNK_SIZE)%nat in
    let last_chunk_is_full := (size mod CHUNK_SIZE =? 0)%nat in
    let full_chunks :=
      map (fun chunk_index =>
             slice byte_string (chunk_index * CHUNK_SIZE)
                               ((chunk_index + 1) * CHUNK_SIZE))
          (seq 0 number_of_full_chunks) in
    if last_chunk_is_full then full_chunks
    else
      let last_chunk :=
        ljust (drop (number_of_full_chunks * CHUNK_SIZE) byte_string)
              CHUNK_SIZE x00 in
      full_chunks ++ [last_chunk].

(** ** Integer helpers *)

(** [n.bit_length()]: the number of bits of [abs n], 0 for 0. *)
Definition bit_length (n : Z) : nat :=
  if n =? 0 then 0%nat else Z.to_nat (Z.log2 (Z.abs n) + 1).

Definition get_next_power_of_two (value : Z) : Z :=
  if value <=? 0 then 1 else 2 ^ Z.of_nat (bit_length (value - 1)).

(** ** The packing the specification describes *)

(** Zero-pad on the right to the next multiple of [CHUNK_SIZE]. *)
Definition pad_to_chunk_multiple (b : bytes) : bytes :=
  b ++ replicate ((CHUNK_SIZE - length b mod CHUNK_SIZE) mod CHUNK_SIZE)%nat x00.

(** Cut into consecutive pieces of [CHUNK_SIZE] bytes. *)
Definition chunk_slices (b : bytes) : list bytes :=
  map (fun i => slice b (i * CHUNK_SIZE) ((i + 1) * CHUNK_SIZE))
      (seq 0 (length b / CHUNK_SIZE)%nat).

(** Concatenate all items, zero-pad, slice. *)
Definition pack_by_concatenation (items : list bytes) : list bytes :=
  chunk_slices (pad_to_chunk_multiple (concat items)).

(** ** Python values stored in the zero-hash table and in the level slots *)

Inductive pyval : Type :=
| PyNone
| PyBytes (b : bytes)
| PyInt (z : Z).

(** [a + b]: concatenation of two [bytes], sum of two integers, [TypeError]
    on any other pair. *)
Definition py_add (a b : pyval) : result pyval :=
  match a, b with
  | PyBytes x, PyBytes y => Ok (PyBytes (x ++ y))
  | PyInt x, PyInt y => Ok (PyInt (x + y))
  | _, _ => Raise TypeError
  end.

(** [l[i]] for [i >= 0]. *)
Definition py_getitem {A : Type} (l : list A) (i : nat) : result A :=
  match l !! i with
  | Some v => Ok v
  | None => Raise IndexError
  end.

(** [l[i] = v] for [i >= 0]. *)
Definition py_setitem {A : Type} (l : list A) (i : nat) (v : A) : result (list A) :=
  if (i <? length l)%nat then Ok (<[i:=v]> l) else Raise IndexError.

(** ** Computations that call [hash_eth2] *)

(** The state is the number of [hash_eth2] invocations made so far. *)
Definition Hashing (A : Type) : Type := nat -> result (A * nat).

Definition hret {A} (a : A) : Hashing A := fun calls => Ok (a, calls).

Definition hbind {A B} (m : Hashing A) (k : A -> Hashing B) : Hashing B :=
  fun calls =>
    match m calls with
    | Ok (a, calls') => k a calls'
    | Raise e => Raise e
    end.

Definition hlift {A} (r : result A) : Hashing A :=
  fun calls =>
    match r with
    | Ok a => Ok (a, calls)
    | Raise e => Raise e
    end.

Declare Scope hashing_scope.
Delimit Scope hashing_scope with hashing.
Notation "x <- m ;; k" := (hbind m (fun x => k))
  (at level 100, m at next level, right associativity) : hashing_scope.

(** [for i in range(start, start + count): s = body(i, s)]. *)
Fixpoint for_range {S : Type} (start count : nat)
    (body : nat -> S -> Hashing S) (s : S) : Hashing S :=
  match count with
  | O => hret s
  | Datatypes.S count' =>
      (s' <- body start s ;; for_range (Datatypes.S start) count' body s')%hashing
  end.

(** What one round of the [while True] loop of [merge] decides. *)
Inductive loop_step : Type :=
| Break
| Continue (node : pyval).

Definition inspect {A : Type} (a : A) : {b : A | a = b} := exist _ a eq_refl.

Section Tree.

(** [ssz.hash.hash_eth2], the designated hash of the tree; its module is
    not part of the sources at hand. *)
Variable hash_eth2 : bytes -> bytes.

(** Python's built-in [hash], which returns an integer for every hashable
    object (for [bytes] one that depends on the interpreter's hash seed). *)
Variable builtin_hash : pyval -> Z.

(** The call [hash_eth2(data)]; anything but [bytes] is a [TypeError]. *)
Definition call_hash_eth2 (data : pyval) : Hashing pyval :=
  match data with
  | PyBytes b => fun calls => Ok (PyBytes (hash_eth2 b), S calls)
  | _ => fun _ => Raise TypeError
  end.

(** *** The zero-hash table, built when the module is loaded *)

(** [zerohashes.append(hash(zerohashes[layer - 1] + zerohashes[layer - 1]))] *)
Definition zerohashes_append (table : list pyval) (layer : nat)
  : result (list pyval) :=
  (prev <- py_getitem table (layer - 1) ;;
   doubled <- py_add prev prev ;;
   Ok (table ++ [PyInt (builtin_hash doubled)]))%res.

Fixpoint zerohashes_fill (layers : list nat) (table : list pyval)
  : result (list pyval) :=
  match layers with
  | [] => Ok table
  | layer :: layers' =>
      (table' <- zerohashes_append table layer ;;
       zerohashes_fill layers' table')%res
  end.

(** [zerohashes = [ZERO_BYTES32]; for layer in range(1, 100): ...] *)
Definition zerohashes_init : result (list pyval) :=
  zerohashes_fill (seq 1 99) [PyBytes ZERO_BYTES32].

Definition zerohashes : list pyval :=
  match zerohashes_init with
  | Ok table => table
  | Raise _ => []
  end.

(** The table is only ever read through its lookup lemmas, never unfolded
    by simplification: its entries nest ninety-nine levels deep. *)
Opaque zerohashes.

(** *** Merkleization *)

(** One round of the loop of [merge] at [layer]. *)
Definition merge_body (chunk_count chunk_depth : nat) (tmp_list : list pyval)
    (leaf_index : nat) (node : pyval) (layer : nat) : Hashing loop_step :=
  if (Nat.land leaf_index (Nat.shiftl 1 layer) =? 0)%nat then
    if (leaf_index =? chunk_count)%nat && (layer <? chunk_depth)%nat then
      (zero <- hlift (py_getitem zerohashes layer) ;;
       both <- hlift (py_add node zero) ;;
       node' <- call_hash_eth2 both ;;
       hret (Continue node'))%hashing
    else hret Break
  else
    (left <- hlift (py_getitem tmp_list layer) ;;
     both <- hlift (py_add left node) ;;
     node' <- call_hash_eth2 both ;;
     hret (Continue node'))%hashing.

(** The [while True] loop of [merge]: the node and the layer it stops at.
    A round continues only below [chunk_depth] or inside [tmp_list]. *)
Equations? merge_loop (chunk_count chunk_depth : nat) (tmp_list : list pyval)
    (leaf_index : nat) (node : pyval) (layer : nat) (calls : nat)
  : result ((pyval * nat) * nat)
  by wf (Nat.max chunk_depth (length tmp_list) - layer)%nat lt :=
  merge_loop chunk_count chunk_depth tmp_list leaf_index node layer calls with
      inspect (merge_body chunk_count chunk_depth tmp_list
                          leaf_index node layer calls) := {
    | exist _ (Raise e) _ := Raise e
    | exist _ (Ok (Break, calls')) _ := Ok ((node, layer), calls')
    | exist _ (Ok (Continue node', calls')) _ :=
        merge_loop chunk_count chunk_depth tmp_list leaf_index node'
                   (S layer) calls' }.
Proof.
  clear merge_loop.
  unfold merge_body, hbind, hlift, hret, py_getitem in e.
  destruct (Nat.land leaf_index (Nat.shiftl 1 layer) =? 0)%nat.
  - destruct ((leaf_index =? chunk_count)%nat && (layer <? chunk_depth)%nat)
      eqn:Hcond; [| discriminate].
    apply andb_prop in Hcond as [_ Hlt]. apply Nat.ltb_lt in Hlt. lia.
  - destruct (tmp_list !! layer) eqn:Hslot; [| discriminate].
    apply lookup_lt_Some in Hslot. lia.
Qed.

Definition merge (chunk_count chunk_depth : nat) (tmp_list : list pyval)
    (leaf : pyval) (leaf_index : nat) : Hashing (list pyval) :=
  (stop <- merge_loop chunk_count chunk_depth tmp_list leaf_index leaf 0 ;;
   let '(node, layer) := stop in
   hlift (py_setitem tmp_list layer node))%hashing.

Definition merkleize (chunks : list bytes) (pad_for : Z) : Hashing pyval :=
  let chunk_count := length chunks in
  let chunk_depth := bit_length (Z.max (Z.of_nat chunk_count - 1) 0) in
  let max_depth := Nat.max chunk_depth (bit_length (pad_for - 1)) in
  let tmp_list := replicate (max_depth + 1) PyNone in
  (tmp_list <-
     for_range 0 chunk_count
       (fun leaf_index tmp_list =>
          leaf <- hlift (py_getitem chunks leaf_index) ;;
          merge chunk_count chunk_depth tmp_list (PyBytes leaf) leaf_index)
       tmp_list ;;
   tmp_list <-
     (if negb (Nat.shiftl 1 chunk_depth =? chunk_count)%nat then
        zero <- hlift (py_getitem zerohashes 0) ;;
        merge chunk_count chunk_depth tmp_list zero chunk_count
      else hret tmp_list) ;;
   tmp_list <-
     for_range chunk_depth (max_depth - chunk_depth)
       (fun layer tmp_list =>
          top <- hlift (py_getitem tmp_list layer) ;;
          zero <- hlift (py_getitem zerohashes layer) ;;
          both <- hlift (py_add top zero) ;;
          parent <- call_hash_eth2 both ;;
          hlift (py_setitem tmp_list (layer + 1) parent))
       tmp_list ;;
   hlift (py_getitem tmp_list max_depth))%hashing.

(** *** Length mixing *)

Definition mix_in_length (root : bytes) (length : Z) : Hashing pyval :=
  (encoded <- hlift (to_bytes_little length CHUNK_SIZE) ;;
   call_hash_eth2 (PyBytes (root ++ encoded)))%hashing.

End Tree.

(** Simplification never unfolds the table either: it is read through its
    lookup lemmas. *)
Arguments zerohashes : simpl never.

(** ** The zero-hash table the specification describes *)

(** Entry 0 is 32 zero bytes, entry [d + 1] hashes entry [d] concatenated
    with itself, with the hash function [H] of the tree. *)
Fixpoint zerohash_by_recursion (H : bytes -> bytes) (depth : nat) : bytes :=
  match depth with
  | O => ZERO_BYTES32
  | S depth' =>
      H (zerohash_by_recursion H depth' ++ zerohash_by_recursion H depth')
  end.

(** The shape every stage of the table built by the code has: the zero chunk,
    then integers. *)
Definition zero_then_ints (table : list pyval) : Prop :=
  exists zs, table = PyBytes ZERO_BYTES32 :: map PyInt zs.

(** What a level slot holds: nothing yet, or a [bytes] node. *)
Definition is_slot (v : pyval) : Prop := v = PyNone \/ exists b, v = PyBytes b.

(** ** Stand-ins for running the tree functions on concrete inputs *)

(** A 32-byte digest function standing in for [hash_eth2]. *)
Definition sample_hash_eth2 (data : bytes) : bytes :=
  take 32 (reverse data ++ replicate 32 x00).

(** An integer hash standing in for Python's built-in [hash]. *)
Definition sample_builtin_hash (v : pyval) : Z :=
  match v with
  | PyNone => 0
  | PyBytes b => from_bytes_little (take 8 b) + Z.of_nat (length b)
  | PyInt z => z mod (2 ^ 61 - 1)
  end.

(** ** Reading from a byte stream *)

(** A byte stream positioned somewhere in its data is the bytes not read
    yet; [stream.read(size)] hands out at most [size] of them, all of them
    for a negative [size], and moves past what it hands out. *)
Definition stream_read (size : Z) (stream : bytes) : bytes * bytes :=
  if size <? 0 then (stream, [])
  else (take (Z.to_nat size) stream, drop (Z.to_nat size) stream).

(** What a reading function leaves: its value and the stream after it, or
    the [DeserializationError], whose message gives the number of bytes asked
    for and the number obtained. *)
Inductive read_outcome (A : Type) : Type :=
| ReadOk (value : A) (rest : bytes)
| DeserializationError (requested : Z) (got : nat).
Arguments ReadOk {A} value rest.
Arguments DeserializationError {A} requested got.

Definition read_exact (num_bytes : Z) (stream : bytes) : read_outcome bytes :=
  let '(data, rest) := stream_read num_bytes stream in
  if negb (Z.of_nat (length data) =? num_bytes)
  then DeserializationError num_bytes (length data)
  else ReadOk data rest.

Definition s_decode_offset (stream : bytes) : read_outcome Z :=
  match read_exact (Z.of_nat OFFSET_SIZE) stream with
  | ReadOk data rest => ReadOk (decode_offset data) rest
  | DeserializationError requested got => DeserializationError requested got
  end.

(** ** Duplicates *)

(** [collections.Counter]: the counts by value, in the order in which the
    values first occur. *)
Fixpoint counter_add {A : Type} `{EqDecision A} (x : A) (counts : list (A * nat))
  : list (A * nat) :=
  match counts with
  | [] => [(x, 1%nat)]
  | (y, n) :: rest =>
      if decide (x = y) then (y, S n) :: rest
      else (y, n) :: counter_add x rest
  end.

Definition Counter {A : Type} `{EqDecision A} (values : list A) : list (A * nat) :=
  fold_left (fun counts x => counter_add x counts) values [].

Definition get_duplicates {A : Type} `{EqDecision A} (values : list A) : list A :=
  map fst (List.filter (fun item => (1 <? snd item)%nat) (Counter values)).

(** [counts[x]]: the count stored for [x], 0 when there is none. *)
Fixpoint counter_get {A : Type} `{EqDecision A} (counts : list (A * nat)) (x : A)
  : nat :=
  match counts with
  | [] => 0%nat
  | (y, n) :: rest => if decide (x = y) then n else counter_get rest x
  end.

(** The number of times [x] occurs in [values]. *)
Fixpoint occurrences {A : Type} `{EqDecision A} (x : A) (values : list A) : nat :=
  match values with
  | [] => 0%nat
  | y :: rest =>
      if decide (x = y) then S (occurrences x rest) else occurrences x rest
  end.

(** ** Hashing one layer of the tree *)

(** [partition(n, xs)] without a fill value zips [n] references to one
    iterator over [xs]: consecutive groups of [n] elements, an incomplete
    last group being dropped. *)
Equations? partition_exact {A : Type} (n : nat) (xs : list A)
  : list (list A) by wf (length xs) lt :=
  partition_exact 0 _ := [];
  partition_exact (S m) xs with inspect (S m <=? length xs)%nat := {
    | exist _ true _ := take (S m) xs :: partition_exact (S m) (drop (S m) xs)
    | exist _ false _ := [] }.
Proof.
  rewrite length_drop. destruct (length xs) as [|len]; [discriminate e |].
  apply Nat.leb_le in e. lia.
Qed.

Section Layer.

Variable hash_eth2 : bytes -> bytes.

(** [tuple(hash_eth2(left_child + right_child) for left_child, right_child
    in child_pairs)]; unpacking a group that is not a pair is a
    [ValueError]. *)
Fixpoint hash_pairs (child_pairs : list (list bytes)) : Hashing (list bytes) :=
  match child_pairs with
  | [] => hret []
  | [left_child; right_child] :: child_pairs' =>
      fun calls =>
        match hash_pairs child_pairs' (S calls) with
        | Ok (parents, calls') =>
            Ok (hash_eth2 (left_child ++ right_child) :: parents, calls')
        | Raise e => Raise e
        end
  | _ :: _ => fun _ => Raise ValueError
  end.

Definition hash_layer (child_layer : list bytes) : Hashing (list bytes) :=
  if negb (length child_layer mod 2 =? 0)%nat then fun _ => Raise ValueError
  else hash_pairs (partition_exact 2 child_layer).

End Layer.

(** * Properties *)

(** ** Bytes and little-endian integers *)

Lemma Z_of_byte_range (b : byte) : 0 <= Z_of_byte b < 256.
Proof.
  unfold Z_of_byte. pose proof (Byte.to_N_bounded b) as Hb.
  split; [apply N2Z.is_nonneg |].
  change 256 with (Z.of_N 256). apply N2Z.inj_lt. lia.
Qed.

Lemma Z_of_byte_of_Z (z : Z) : Z_of_byte (byte_of_Z z) = z mod 256.
Proof.
  unfold Z_of_byte, byte_of_Z.
  pose proof (Z.mod_pos_bound z 256 eq_refl) as [Hlo Hhi].
  destruct (Byte.of_N (Z.to_N (z mod 256))) as [b|] eqn:Hb.
  - apply Byte.to_of_N in Hb. rewrite Hb. rewrite Z2N.id; [reflexivity | assumption].
  - apply Byte.of_N_None_iff in Hb. lia.
Qed.

Lemma byte_of_Z_zero : byte_of_Z 0 = x00.
Proof. reflexivity. Qed.

Lemma le_digits_length (len : nat) (n : Z) : length (le_digits len n) = len.
Proof. revert n. induction len as [|len IH]; intros n; simpl; [| rewrite IH]; reflexivity. Qed.

Lemma le_digits_zero (len : nat) : le_digits len 0 = replicate len x00.
Proof.
  induction len as [|len IH]; simpl; [reflexivity |].
  rewrite Z.div_0_l by lia. rewrite IH. reflexivity.
Qed.

(** Decoding the [len] low digits gives the integer modulo [256 ^ len]. *)
Lemma from_bytes_le_digits (len : nat) (n : Z) :
  from_bytes_little (le_digits len n) = n mod 256 ^ Z.of_nat len.
Proof.
  revert n. induction len as [|len IH]; intros n.
  - simpl. rewrite Z.mod_1_r. reflexivity.
  - cbn [le_digits from_bytes_little].
    rewrite Z_of_byte_of_Z, IH, Nat2Z.inj_succ, Z.pow_succ_r by lia.
    rewrite Z.rem_mul_r by lia. reflexivity.
Qed.

Lemma to_bytes_little_ok (n : Z) (len : nat) :
  0 <= n < 256 ^ Z.of_nat len ->
  to_bytes_little n len = Ok (le_digits len n).
Proof.
  intros [Hlo Hhi]. unfold to_bytes_little.
  destruct (Z.ltb_spec n 0); [lia |].
  destruct (Z.leb_spec (256 ^ Z.of_nat len) n); [lia | reflexivity].
Qed.

Lemma to_bytes_little_roundtrip (n : Z) (len : nat) :
  0 <= n < 256 ^ Z.of_nat len ->
  from_bytes_little (le_digits len n) = n.
Proof. intros Hn. rewrite from_bytes_le_digits. apply Z.mod_small, Hn. Qed.

(** ** Offsets *)

(** C10: for every integer [x] with [0 <= x < 2^32], [encode_offset x]
    returns a byte string of exactly [OFFSET_SIZE] (4) bytes, and
    [decode_offset] gives [x] back from it. *)
Theorem offset_roundtrip (x : Z) :
  0 <= x < 2 ^ 32 ->
  exists data,
    encode_offset x = Ok data /\
    length data = OFFSET_SIZE /\
    OFFSET_SIZE = 4%nat /\
    decode_offset data = x.
Proof.
  intros Hx. exists (le_digits OFFSET_SIZE x).
  assert (Hx' : 0 <= x < 256 ^ Z.of_nat OFFSET_SIZE) by (change (256 ^ Z.of_nat OFFSET_SIZE) with (2 ^ 32); exact Hx).
  unfold encode_offset, decode_offset.
  rewrite to_bytes_little_ok by exact Hx'.
  rewrite le_digits_length, to_bytes_little_roundtrip by exact Hx'.
  repeat split.
Qed.

Lemma offset_roundtrip_witness :
  0 <= 305419896 < 2 ^ 32 /\
  exists data,
    encode_offset 305419896 = Ok data /\
    length data = OFFSET_SIZE /\
    OFFSET_SIZE = 4%nat /\
    decode_offset data = 305419896.
Proof.
  assert (Hx : 0 <= 305419896 < 2 ^ 32) by lia.
  split; [exact Hx | exact (offset_roundtrip 305419896 Hx)].
Defined.

Example encode_offset_example :
  encode_offset 305419896 = Ok [x78; x56; x34; x12].
Proof. reflexivity. Qed.

Example encode_offset_too_big : encode_offset (2 ^ 32) = Raise OverflowError.
Proof. reflexivity. Qed.

(** ** Items per chunk *)

Lemma get_items_per_chunk_negative (s : Z) :
  s < 0 -> get_items_per_chunk s = Raise ValueError.
Proof.
  intros Hs. unfold get_items_per_chunk.
  destruct (Z.ltb_spec s 0); [reflexivity | lia].
Qed.

Lemma get_items_per_chunk_divisor (s : Z) :
  0 < s -> (s | Z.of_nat CHUNK_SIZE) ->
  get_items_per_chunk s = Ok (Z.of_nat CHUNK_SIZE / s).
Proof.
  intros Hs Hdiv. unfold get_items_per_chunk.
  destruct (Z.ltb_spec s 0); [lia |].
  destruct (Z.eqb_spec s 0); [lia |].
  assert (Hmod : Z.of_nat CHUNK_SIZE mod s = 0) by (apply Z.mod_divide; [lia | exact Hdiv]).
  rewrite Hmod. cbn [Z.eqb negb].
  assert (Hle : s <= Z.of_nat CHUNK_SIZE) by (apply Z.divide_pos_le; [reflexivity | exact Hdiv]).
  destruct (Z.leb_spec s (Z.of_nat CHUNK_SIZE)); [reflexivity | lia].
Qed.

Lemma get_items_per_chunk_non_divisor (s : Z) :
  0 < s -> ~ (s | Z.of_nat CHUNK_SIZE) ->
  get_items_per_chunk s = Raise ValueError.
Proof.
  intros Hs Hndiv. unfold get_items_per_chunk.
  destruct (Z.ltb_spec s 0); [lia |].
  destruct (Z.eqb_spec s 0); [lia |].
  destruct (Z.eqb_spec (Z.of_nat CHUNK_SIZE mod s) 0) as [Hmod | Hmod]; [| reflexivity].
  exfalso. apply Hndiv. apply Z.mod_divide; [lia | exact Hmod].
Qed.

(** A size above the chunk size never divides it. *)
Lemma oversize_not_divisor (s : Z) :
  Z.of_nat CHUNK_SIZE < s -> ~ (s | Z.of_nat CHUNK_SIZE).
Proof.
  intros Hs Hdiv. apply Z.divide_pos_le in Hdiv; [lia | reflexivity].
Qed.

(** C8, counterexample: 0 is not a positive divisor of the chunk size, yet
    [get_items_per_chunk 0] returns 1 and [pack] on an item of size 0 returns
    a chunk; neither raises. *)
Lemma item_size_zero_is_accepted :
  ~ (0 < 0 /\ (0 | Z.of_nat CHUNK_SIZE)) /\
  get_items_per_chunk 0 = Ok 1 /\
  pack [ [] ] = Ok [EMPTY_CHUNK].
Proof.
  split; [lia |]. split; [reflexivity | vm_compute; reflexivity].
Qed.

(** C8, as amended: [get_items_per_chunk] raises [ValueError] on every
    negative size and on every positive size that does not divide
    [CHUNK_SIZE] (every size above [CHUNK_SIZE] is one), and so does [pack]
    on a sequence whose first item has such a positive size; size 0 is
    accepted with 1 item per chunk; a positive divisor [s] gives
    [CHUNK_SIZE / s]. *)
Theorem item_size_validation :
  (forall s, s < 0 -> get_items_per_chunk s = Raise ValueError) /\
  (forall s, 0 < s -> ~ (s | Z.of_nat CHUNK_SIZE) ->
             get_items_per_chunk s = Raise ValueError) /\
  (forall s, Z.of_nat CHUNK_SIZE < s -> get_items_per_chunk s = Raise ValueError) /\
  (forall item items,
      (0 < length item)%nat -> ~ (Z.of_nat (length item) | Z.of_nat CHUNK_SIZE) ->
      pack (item :: items) = Raise ValueError) /\
  get_items_per_chunk 0 = Ok 1 /\
  (forall s, 0 < s -> (s | Z.of_nat CHUNK_SIZE) ->
             get_items_per_chunk s = Ok (Z.of_nat CHUNK_SIZE / s)).
Proof.
  repeat split.
  - exact get_items_per_chunk_negative.
  - exact get_items_per_chunk_non_divisor.
  - intros s Hs. apply get_items_per_chunk_non_divisor.
    + unfold CHUNK_SIZE in Hs. lia.
    + apply oversize_not_divisor, Hs.
  - intros item items Hpos Hndiv. unfold pack.
    rewrite get_items_per_chunk_non_divisor; [reflexivity | lia | exact Hndiv].
  - exact get_items_per_chunk_divisor.
Qed.

Lemma item_size_validation_witness :
  get_items_per_chunk (-8) = Raise ValueError /\
  get_items_per_chunk 5 = Raise ValueError /\
  get_items_per_chunk 64 = Raise ValueError /\
  pack [[x01; x02; x03]; [x04; x05; x06]] = Raise ValueError /\
  get_items_per_chunk 0 = Ok 1 /\
  get_items_per_chunk 8 = Ok 4.
Proof.
  destruct item_size_validation as (Hneg & Hndiv & Hbig & Hpack & Hzero & Hdiv).
  assert (H5 : ~ (5 | Z.of_nat CHUNK_SIZE)).
  { intros [k Hk]. unfold CHUNK_SIZE in Hk. lia. }
  assert (H3 : ~ (Z.of_nat (length [x01; x02; x03]) | Z.of_nat CHUNK_SIZE)).
  { intros [k Hk]. unfold CHUNK_SIZE in Hk. simpl in Hk. lia. }
  assert (H8 : (8 | Z.of_nat CHUNK_SIZE)) by (exists 4; reflexivity).
  split; [apply Hneg; lia |].
  split; [apply Hndiv; [lia | exact H5] |].
  split; [apply Hbig; unfold CHUNK_SIZE; lia |].
  split; [apply Hpack; [simpl; lia | exact H3] |].
  split; [exact Hzero |].
  exact (Hdiv 8 ltac:(lia) H8).
Defined.

(** ** The zero-hash table *)

Section ZeroHashTable.

Variable builtin_hash : pyval -> Z.

Lemma zerohashes_append_shape (table : list pyval) (layer : nat) :
  zero_then_ints table -> (1 <= layer)%nat -> length table = layer ->
  exists z, zerohashes_append builtin_hash table layer = Ok (table ++ [PyInt z]).
Proof.
  intros [zs ->] Hlayer Hlen. unfold zerohashes_append, py_getitem.
  destruct ((PyBytes ZERO_BYTES32 :: map PyInt zs) !! (layer - 1)%nat)
    as [prev|] eqn:Hprev.
  - assert (Hshape : prev = PyBytes ZERO_BYTES32 \/ exists z, prev = PyInt z).
    { destruct (layer - 1)%nat as [|k]; simpl in Hprev.
      - left. congruence.
      - right. rewrite list_lookup_fmap in Hprev.
        destruct (zs !! k) as [z|]; simpl in Hprev; [| discriminate].
        exists z. congruence. }
    destruct Hshape as [-> | [z ->]]; simpl; eauto.
  - apply lookup_ge_None in Hprev. lia.
Qed.

Lemma zerohashes_fill_shape (count start : nat) (table : list pyval) :
  zero_then_ints table -> (1 <= start)%nat -> length table = start ->
  exists table',
    zerohashes_fill builtin_hash (seq start count) table = Ok table' /\
    zero_then_ints table' /\
    length table' = (start + count)%nat /\
    take start table' = table.
Proof.
  revert start table. induction count as [|count IH]; intros start table Hshape Hstart Hlen.
  - exists table. simpl. repeat split; [assumption | lia |].
    apply take_ge. lia.
  - destruct (zerohashes_append_shape table start Hshape Hstart Hlen) as [z Hz].
    cbn [seq zerohashes_fill]. rewrite Hz. cbn [rbind].
    destruct (IH (S start) (table ++ [PyInt z])) as (table' & Hfill & Hshape' & Hlen' & Htake).
    + destruct Hshape as [zs ->]. exists (zs ++ [z]).
      rewrite map_app. reflexivity.
    + lia.
    + rewrite length_app. simpl. lia.
    + exists table'. repeat split; [assumption | assumption | lia |].
      rewrite <- (take_app_length table [PyInt z]), <- Hlen, <- Htake.
      rewrite take_take. f_equal. lia.
Qed.

(** Loading the module succeeds and leaves a table of 100 entries. *)
Lemma zerohashes_init_ok :
  zerohashes_init builtin_hash = Ok (zerohashes builtin_hash) /\
  zero_then_ints (zerohashes builtin_hash) /\
  length (zerohashes builtin_hash) = 100%nat.
Proof.
  destruct (zerohashes_fill_shape 99 1 [PyBytes ZERO_BYTES32])
    as (table & Hfill & Hshape & Hlen & _).
  - exists []. reflexivity.
  - lia.
  - reflexivity.
  - with_strategy transparent [zerohashes] unfold zerohashes.
    unfold zerohashes_init. rewrite Hfill. auto.
Qed.

Lemma zerohashes_lookup_0 :
  zerohashes builtin_hash !! 0%nat = Some (PyBytes ZERO_BYTES32).
Proof.
  destruct zerohashes_init_ok as (_ & [zs ->] & _). reflexivity.
Qed.

Lemma zerohashes_lookup_int (depth : nat) :
  (1 <= depth <= 99)%nat ->
  exists z, zerohashes builtin_hash !! depth = Some (PyInt z).
Proof.
  intros Hdepth. destruct zerohashes_init_ok as (_ & [zs Hzs] & Hlen).
  rewrite Hzs in Hlen |- *. simpl in Hlen. rewrite length_map in Hlen.
  destruct depth as [|k]; [lia |]. simpl. rewrite list_lookup_fmap.
  destruct (zs !! k) as [z|] eqn:Hk; [eauto |].
  apply lookup_ge_None in Hk. lia.
Qed.

Lemma zerohashes_lookup_1 :
  zerohashes builtin_hash !! 1%nat =
    Some (PyInt (builtin_hash (PyBytes (ZERO_BYTES32 ++ ZERO_BYTES32)))).
Proof. vm_compute. reflexivity. Qed.

End ZeroHashTable.

(** From here on the table is opaque: its lookup lemmas say all there is to
    know, and its entries nest ninety-nine levels deep. *)
Opaque zerohashes.

(** ** Merkleization and length mixing *)

Section TreeFacts.

Variable hash_eth2 : bytes -> bytes.
Variable builtin_hash : pyval -> Z.

(** *** Running a computation step by step *)

Lemma hbind_ok {A B} (m : Hashing A) (k : A -> Hashing B)
    (calls calls' : nat) (a : A) :
  m calls = Ok (a, calls') -> hbind m k calls = k a calls'.
Proof. intros Hm. unfold hbind. rewrite Hm. reflexivity. Qed.

Lemma hbind_raise {A B} (m : Hashing A) (k : A -> Hashing B)
    (calls : nat) (e : exn) :
  m calls = Raise e -> hbind m k calls = Raise e.
Proof. intros Hm. unfold hbind. rewrite Hm. reflexivity. Qed.

Lemma hbind_fails {A B} (m : Hashing A) (k : A -> Hashing B) (calls : nat) :
  (forall a calls', m calls = Ok (a, calls') -> exists e, k a calls' = Raise e) ->
  exists e, hbind m k calls = Raise e.
Proof.
  intros Hk. unfold hbind. destruct (m calls) as [[a calls']|e]; eauto.
Qed.

Lemma hbind_inv {A B} (m : Hashing A) (k : A -> Hashing B)
    (calls : nat) (r : B * nat) :
  hbind m k calls = Ok r ->
  exists a calls', m calls = Ok (a, calls') /\ k a calls' = Ok r.
Proof.
  unfold hbind. destruct (m calls) as [[a calls']|e]; [eauto | discriminate].
Qed.

Lemma hlift_inv {A} (r : result A) (calls calls' : nat) (a : A) :
  hlift r calls = Ok (a, calls') -> r = Ok a /\ calls' = calls.
Proof. unfold hlift. destruct r; [| discriminate]. intros [= -> ->]. auto. Qed.

(** *** The zero-hash table *)

(** C1: the code fills the table with Python's built-in [hash], not with
    [hash_eth2]: entry 0 is the zero chunk, entry 1 is the integer
    [hash(zero ++ zero)], every later entry is an integer too, and so
    entry 1 is not the digest [hash_eth2 (zero ++ zero)] of the recursion. *)
Theorem zerohashes_hold_builtin_hash_integers :
  zerohashes builtin_hash !! 0%nat =
    Some (PyBytes (zerohash_by_recursion hash_eth2 0)) /\
  zerohashes builtin_hash !! 1%nat =
    Some (PyInt (builtin_hash (PyBytes (ZERO_BYTES32 ++ ZERO_BYTES32)))) /\
  zerohashes builtin_hash !! 1%nat <>
    Some (PyBytes (zerohash_by_recursion hash_eth2 1)) /\
  Forall (fun entry => exists z, entry = PyInt z)
         (drop 1 (zerohashes builtin_hash)) /\
  length (zerohashes builtin_hash) = 100%nat.
Proof.
  split; [apply zerohashes_lookup_0 |].
  split; [apply zerohashes_lookup_1 |].
  split; [rewrite zerohashes_lookup_1; intros Heq; discriminate Heq |].
  destruct (zerohashes_init_ok builtin_hash) as (_ & [zs Hzs] & Hlen).
  split; [| exact Hlen].
  rewrite Hzs. simpl. rewrite drop_0. apply Forall_fmap, Forall_true.
  intros z. simpl. eauto.
Qed.

(** *** The loop of [merge] *)

Lemma merge_loop_round (chunk_count chunk_depth : nat) (tmp_list : list pyval)
    (leaf_index : nat) (node : pyval) (layer calls : nat) :
  merge_loop hash_eth2 builtin_hash chunk_count chunk_depth tmp_list
             leaf_index node layer calls =
    match merge_body hash_eth2 builtin_hash chunk_count chunk_depth tmp_list
                     leaf_index node layer calls with
    | Raise e => Raise e
    | Ok (Break, calls') => Ok ((node, layer), calls')
    | Ok (Continue node', calls') =>
        merge_loop hash_eth2 builtin_hash chunk_count chunk_depth tmp_list
                   leaf_index node' (S layer) calls'
    end.
Proof.
  rewrite merge_loop_equation_1.
  remember (inspect (merge_body hash_eth2 builtin_hash chunk_count chunk_depth
                       tmp_list leaf_index node layer calls)) as round eqn:Hround.
  clear Hround. destruct round as [outcome Houtcome].
  destruct outcome as [[[|node'] calls']|e]; simpl; rewrite Houtcome; reflexivity.
Qed.

Lemma call_hash_eth2_bytes (v v' : pyval) (calls calls' : nat) :
  call_hash_eth2 hash_eth2 v calls = Ok (v', calls') -> exists b, v' = PyBytes b.
Proof.
  destruct v as [| b | z]; simpl; intros Hcall;
    [discriminate Hcall | | discriminate Hcall].
  injection Hcall as <- _. eauto.
Qed.

(** A round that continues is below [chunk_depth] or inside [tmp_list], and
    its node is a digest. *)
Lemma merge_body_continue (chunk_count chunk_depth : nat) (tmp_list : list pyval)
    (leaf_index : nat) (node node' : pyval) (layer calls calls' : nat) :
  merge_body hash_eth2 builtin_hash chunk_count chunk_depth tmp_list
             leaf_index node layer calls = Ok (Continue node', calls') ->
  (layer < Nat.max chunk_depth (length tmp_list))%nat /\
  exists b, node' = PyBytes b.
Proof.
  unfold merge_body. intros Hbody.
  destruct (Nat.land leaf_index (Nat.shiftl 1 layer) =? 0)%nat.
  - destruct ((leaf_index =? chunk_count)%nat && (layer <? chunk_depth)%nat)
      eqn:Hcond; [| discriminate Hbody].
    apply andb_prop in Hcond as [_ Hlt%Nat.ltb_lt].
    apply hbind_inv in Hbody as (zero & c1 & _ & Hbody).
    apply hbind_inv in Hbody as (both & c2 & _ & Hbody).
    apply hbind_inv in Hbody as (parent & c3 & Hhash & Hret).
    injection Hret as <- _. split; [lia |]. eapply call_hash_eth2_bytes, Hhash.
  - apply hbind_inv in Hbody as (left & c1 & Hleft & Hbody).
    apply hbind_inv in Hbody as (both & c2 & _ & Hbody).
    apply hbind_inv in Hbody as (parent & c3 & Hhash & Hret).
    injection Hret as <- _. apply hlift_inv in Hleft as [Hleft _].
    unfold py_getitem in Hleft.
    destruct (tmp_list !! layer) eqn:Hslot; [| discriminate Hleft].
    apply lookup_lt_Some in Hslot. split; [lia |].
    eapply call_hash_eth2_bytes, Hhash.
Qed.

(** The loop stops on a [bytes] node when it starts on one. *)
Lemma merge_loop_bytes (chunk_count chunk_depth : nat) (tmp_list : list pyval)
    (leaf_index : nat) (node node' : pyval) (layer layer' calls calls' : nat) :
  (exists b, node = PyBytes b) ->
  merge_loop hash_eth2 builtin_hash chunk_count chunk_depth tmp_list
             leaf_index node layer calls = Ok ((node', layer'), calls') ->
  exists b, node' = PyBytes b.
Proof.
  remember (Nat.max chunk_depth (length tmp_list) - layer)%nat as todo eqn:Htodo.
  revert node layer calls Htodo.
  induction todo as [todo IH] using lt_wf_ind. intros node layer calls Htodo Hnode.
  rewrite merge_loop_round.
  destruct (merge_body hash_eth2 builtin_hash chunk_count chunk_depth tmp_list
              leaf_index node layer calls) as [[[|next] calls1]|e] eqn:Hbody.
  - intros [= <- _ _]. exact Hnode.
  - apply merge_body_continue in Hbody as [Hlt Hnext].
    apply (IH (Nat.max chunk_depth (length tmp_list) - S layer)%nat);
      [lia | reflexivity | exact Hnext].
  - intros Hloop. discriminate Hloop.
Qed.

(** [merge] keeps every slot unset or a [bytes] node. *)
Lemma merge_slots (chunk_count chunk_depth : nat) (tmp_list tmp_list' : list pyval)
    (leaf : bytes) (leaf_index calls calls' : nat) :
  Forall is_slot tmp_list ->
  merge hash_eth2 builtin_hash chunk_count chunk_depth tmp_list (PyBytes leaf)
        leaf_index calls = Ok (tmp_list', calls') ->
  Forall is_slot tmp_list' /\ length tmp_list' = length tmp_list.
Proof.
  intros Hslots Hmerge. unfold merge in Hmerge.
  apply hbind_inv in Hmerge as ([node layer] & c1 & Hloop & Hset).
  apply merge_loop_bytes in Hloop as [b ->]; [| eauto].
  apply hlift_inv in Hset as [Hset _]. unfold py_setitem in Hset.
  destruct (layer <? length tmp_list)%nat; [| discriminate Hset].
  injection Hset as <-. split; [| apply length_insert].
  apply Forall_insert; [exact Hslots | right; eauto].
Qed.

Lemma leaves_slots (chunks : list bytes) (chunk_count chunk_depth count start : nat)
    (tmp_list tmp_list' : list pyval) (calls calls' : nat) :
  Forall is_slot tmp_list ->
  for_range start count
    (fun leaf_index tmp_list =>
       (leaf <- hlift (py_getitem chunks leaf_index) ;;
        merge hash_eth2 builtin_hash chunk_count chunk_depth tmp_list
              (PyBytes leaf) leaf_index)%hashing)
    tmp_list calls = Ok (tmp_list', calls') ->
  Forall is_slot tmp_list' /\ length tmp_list' = length tmp_list.
Proof.
  revert start tmp_list calls.
  induction count as [|count IH]; intros start tmp_list calls Hslots Hloop.
  - injection Hloop as <- _. auto.
  - cbn [for_range] in Hloop.
    apply hbind_inv in Hloop as (tl1 & c1 & Hstep & Hloop).
    apply hbind_inv in Hstep as (leaf & c0 & _ & Hmerge).
    apply merge_slots in Hmerge as [Hslots1 Hlen1]; [| exact Hslots].
    apply IH in Hloop as [Hslots' Hlen']; [| exact Hslots1].
    split; [exact Hslots' | congruence].
Qed.

(** *** Growing the tree above the chunks *)

Lemma py_add_int_raises (v : pyval) (z : Z) :
  is_slot v -> py_add v (PyInt z) = Raise TypeError.
Proof. intros [-> | [b ->]]; reflexivity. Qed.

(** Growing the tree from a layer above 0 fails at once: the zero hash of
    that layer is an integer. *)
Lemma growth_above_zero_fails (tmp_list : list pyval) (layer more calls : nat) :
  Forall is_slot tmp_list -> (1 <= layer)%nat ->
  exists e,
    for_range layer (S more)
      (fun layer tmp_list =>
         (top <- hlift (py_getitem tmp_list layer) ;;
          zero <- hlift (py_getitem (zerohashes builtin_hash) layer) ;;
          both <- hlift (py_add top zero) ;;
          parent <- call_hash_eth2 hash_eth2 both ;;
          hlift (py_setitem tmp_list (layer + 1) parent))%hashing)
      tmp_list calls = Raise e.
Proof.
  intros Hslots Hlayer.
  pose proof (zerohashes_lookup_int builtin_hash) as Hints.
  destruct (zerohashes_init_ok builtin_hash) as (_ & _ & Hlen).
  remember (zerohashes builtin_hash) as table eqn:Htable. clear Htable.
  cbn [for_range].
  apply hbind_fails. intros tl1 c1 Hstep. exfalso.
  apply hbind_inv in Hstep as (top & c2 & Htop & Hstep).
  apply hbind_inv in Hstep as (zero & c3 & Hzero & Hstep).
  apply hbind_inv in Hstep as (both & c4 & Hboth & _).
  apply hlift_inv in Htop as [Htop _]. apply hlift_inv in Hzero as [Hzero _].
  apply hlift_inv in Hboth as [Hboth _].
  unfold py_getitem in Htop, Hzero.
  destruct (tmp_list !! layer) as [v|] eqn:Hv; [| discriminate Htop].
  injection Htop as ->.
  destruct (table !! layer) as [entry|] eqn:Hentry; [| discriminate Hzero].
  injection Hzero as ->.
  assert (Hrange : (layer <= 99)%nat).
  { apply lookup_lt_Some in Hentry. lia. }
  destruct (Hints layer ltac:(lia)) as [z Hz].
  rewrite Hz in Hentry. injection Hentry as <-.
  rewrite py_add_int_raises in Hboth; [discriminate Hboth |].
  eapply Forall_lookup_1; eassumption.
Qed.

(** Growing the tree by two layers or more always fails. *)
Lemma growth_by_two_fails (tmp_list : list pyval) (layer more calls : nat) :
  Forall is_slot tmp_list ->
  exists e,
    for_range layer (S (S more))
      (fun layer tmp_list =>
         (top <- hlift (py_getitem tmp_list layer) ;;
          zero <- hlift (py_getitem (zerohashes builtin_hash) layer) ;;
          both <- hlift (py_add top zero) ;;
          parent <- call_hash_eth2 hash_eth2 both ;;
          hlift (py_setitem tmp_list (layer + 1) parent))%hashing)
      tmp_list calls = Raise e.
Proof.
  intros Hslots. destruct layer as [|layer].
  - cbn [for_range]. apply hbind_fails. intros tl1 c1 Hstep.
    apply (growth_above_zero_fails tl1 1 more c1); [| lia].
    apply hbind_inv in Hstep as (top & c2 & _ & Hstep).
    apply hbind_inv in Hstep as (zero & c3 & _ & Hstep).
    apply hbind_inv in Hstep as (both & c4 & _ & Hstep).
    apply hbind_inv in Hstep as (parent & c5 & Hhash & Hset).
    apply call_hash_eth2_bytes in Hhash as [b ->].
    apply hlift_inv in Hset as [Hset _]. unfold py_setitem in Hset.
    destruct (0 + 1 <? length tmp_list)%nat; [| discriminate Hset].
    injection Hset as <-. apply Forall_insert; [exact Hslots | right; eauto].
  - apply growth_above_zero_fails; [exact Hslots | lia].
Qed.

Lemma bit_length_two_more (n : Z) :
  2 <= n -> (2 <= bit_length n)%nat.
Proof.
  intros Hn. unfold bit_length.
  destruct (Z.eqb_spec n 0); [lia |].
  rewrite Z.abs_eq by lia.
  assert (1 <= Z.log2 n) by (apply Z.log2_le_pow2; simpl; lia).
  lia.
Qed.

(** A pad target above the next power of two of the chunk count asks for a
    deeper tree than the chunks do. *)
Lemma pad_target_depth (chunk_count : nat) (pad_for : Z) :
  get_next_power_of_two (Z.of_nat chunk_count) < pad_for ->
  (bit_length (Z.max (Z.of_nat chunk_count - 1) 0) < bit_length (pad_for - 1))%nat.
Proof.
  unfold get_next_power_of_two. intros Hpad.
  destruct (Z.leb_spec (Z.of_nat chunk_count) 0) as [Hzero | Hpos].
  - replace (Z.max (Z.of_nat chunk_count - 1) 0) with 0 by lia.
    unfold bit_length. cbn [Z.eqb].
    destruct (Z.eqb_spec (pad_for - 1) 0); [lia |].
    rewrite Z.abs_eq by lia. pose proof (Z.log2_nonneg (pad_for - 1)). lia.
  - replace (Z.max (Z.of_nat chunk_count - 1) 0) with (Z.of_nat chunk_count - 1)
      in * by lia.
    set (depth := bit_length (Z.of_nat chunk_count - 1)) in *.
    assert (Hpow : 0 < 2 ^ Z.of_nat depth) by (apply Z.pow_pos_nonneg; lia).
    unfold bit_length at 1.
    destruct (Z.eqb_spec (pad_for - 1) 0); [lia |].
    rewrite Z.abs_eq by lia.
    assert (Z.of_nat depth <= Z.log2 (pad_for - 1))
      by (apply Z.log2_le_pow2; lia).
    lia.
Qed.

(** Whenever the pad target asks for a layer above the chunks and for two
    layers at least, [merkleize] raises. *)
Lemma merkleize_growth_fails (chunks : list bytes) (pad_for : Z) (calls : nat) :
  (bit_length (Z.max (Z.of_nat (length chunks) - 1) 0) < bit_length (pad_for - 1))%nat ->
  (2 <= bit_length (pad_for - 1))%nat ->
  exists e, merkleize hash_eth2 builtin_hash chunks pad_for calls = Raise e.
Proof.
  intros Hdepth Htwo. unfold merkleize.
  set (chunk_depth := bit_length (Z.max (Z.of_nat (length chunks) - 1) 0)) in *.
  set (max_depth := Nat.max chunk_depth (bit_length (pad_for - 1))).
  apply hbind_fails. intros tl1 c1 Hleaves.
  apply leaves_slots in Hleaves as [Hslots1 _];
    [| apply Forall_replicate; left; reflexivity].
  apply hbind_fails. intros tl2 c2 Hcomplement.
  assert (Hslots2 : Forall is_slot tl2).
  { destruct (negb (Nat.shiftl 1 chunk_depth =? length chunks)%nat).
    - apply hbind_inv in Hcomplement as (zero & c0 & Hzero & Hmerge).
      apply hlift_inv in Hzero as [Hzero _]. unfold py_getitem in Hzero.
      rewrite zerohashes_lookup_0 in Hzero. injection Hzero as <-.
      apply merge_slots in Hmerge as [Hslots _]; assumption.
    - injection Hcomplement as <- _. exact Hslots1. }
  apply hbind_fails. intros tl3 c3 Hgrowth. exfalso.
  destruct chunk_depth as [|depth] eqn:Hcd.
  - assert (Hmore : exists more, (max_depth - 0 = S (S more))%nat)
      by (exists (max_depth - 2)%nat; unfold max_depth; lia).
    destruct Hmore as [more Hmore]. rewrite Hmore in Hgrowth.
    destruct (growth_by_two_fails tl2 0 more c2 Hslots2) as [e He].
    rewrite He in Hgrowth. discriminate Hgrowth.
  - assert (Hmore : exists more, (max_depth - S depth = S more)%nat)
      by (exists (max_depth - S depth - 1)%nat; unfold max_depth; lia).
    destruct Hmore as [more Hmore]. rewrite Hmore in Hgrowth.
    destruct (growth_above_zero_fails tl2 (S depth) more c2 Hslots2 ltac:(lia))
      as [e He].
    rewrite He in Hgrowth. discriminate Hgrowth.
Qed.

(** *** Small trees *)

Lemma merkleize_single (chunk : bytes) (calls : nat) :
  merkleize hash_eth2 builtin_hash [chunk] 1 calls = Ok (PyBytes chunk, calls).
Proof. vm_compute. reflexivity. Qed.

Lemma merge_first_leaf (chunk_count : nat) (tmp_list : list pyval) (leaf : pyval)
    (calls : nat) :
  (0 < length tmp_list)%nat ->
  merge hash_eth2 builtin_hash chunk_count 0 tmp_list leaf 0 calls =
    Ok (<[0%nat:=leaf]> tmp_list, calls).
Proof.
  intros Hlen. unfold merge.
  rewrite (hbind_ok _ _ calls calls (leaf, 0%nat)).
  - unfold hlift, py_setitem.
    destruct (Nat.ltb_spec 0 (length tmp_list)); [reflexivity | lia].
  - rewrite merge_loop_round. unfold merge_body. cbn.
    rewrite andb_false_r. reflexivity.
Qed.

(** Two growth rounds from layer 0 end in the [TypeError] of
    [bytes + int]. *)
Lemma growth_raises (tmp_list : list pyval) (top : bytes) (more calls : nat) :
  tmp_list !! 0%nat = Some (PyBytes top) ->
  (2 <= length tmp_list)%nat ->
  for_range 0 (S (S more))
    (fun layer tmp_list =>
       (top <- hlift (py_getitem tmp_list layer) ;;
        zero <- hlift (py_getitem (zerohashes builtin_hash) layer) ;;
        both <- hlift (py_add top zero) ;;
        parent <- call_hash_eth2 hash_eth2 both ;;
        hlift (py_setitem tmp_list (layer + 1) parent))%hashing)
    tmp_list calls = Raise TypeError.
Proof.
  intros Htop Hlen.
  pose proof (zerohashes_lookup_0 builtin_hash) as Hzero.
  pose proof (zerohashes_lookup_1 builtin_hash) as Hone.
  remember (zerohashes builtin_hash) as table eqn:Htable. clear Htable.
  cbn [for_range]. unfold hbind at 1. unfold hbind at 1.
  unfold hlift at 1, py_getitem at 1. rewrite Htop.
  unfold hbind at 1, hlift at 1, py_getitem at 1. rewrite Hzero.
  cbn [py_add]. unfold hbind at 1, hlift at 1. unfold hbind at 1.
  cbn [call_hash_eth2].
  unfold hlift at 1, py_setitem at 1.
  destruct (Nat.ltb_spec (0 + 1) (length tmp_list)); [| lia].
  unfold hbind at 1. unfold hbind at 1, hlift at 1, py_getitem at 1.
  rewrite list_lookup_insert_eq by lia.
  unfold hbind at 1, hlift at 1, py_getitem at 1. rewrite Hone.
  reflexivity.
Qed.

Lemma merkleize_empty_raises (pad_for : Z) (calls : nat) :
  3 <= pad_for ->
  merkleize hash_eth2 builtin_hash [] pad_for calls = Raise TypeError.
Proof.
  intros Hpad.
  pose proof (bit_length_two_more (pad_for - 1) ltac:(lia)) as Htwo.
  destruct (bit_length (pad_for - 1)) as [|[|more]] eqn:Hmore; [lia | lia |].
  unfold merkleize. cbn [length].
  change (bit_length (Z.max (Z.of_nat 0 - 1) 0)) with 0%nat.
  rewrite Hmore. cbn [Nat.max for_range].
  rewrite (hbind_ok _ _ calls calls (replicate (S (S more) + 1) PyNone))
    by reflexivity.
  change (negb (Nat.shiftl 1 0 =? 0)%nat) with true. cbn iota.
  rewrite (hbind_ok _ _ calls calls
             (<[0%nat:=PyBytes ZERO_BYTES32]> (replicate (S (S more) + 1) PyNone))).
  - apply hbind_raise. rewrite Nat.sub_0_r.
    apply (growth_raises _ ZERO_BYTES32).
    + reflexivity.
    + rewrite length_insert, length_replicate. lia.
  - rewrite (hbind_ok _ _ calls calls (PyBytes ZERO_BYTES32)).
    + apply merge_first_leaf. rewrite length_replicate. lia.
    + unfold hlift, py_getitem. rewrite zerohashes_lookup_0. reflexivity.
Qed.

Lemma merkleize_single_raises (chunk : bytes) (pad_for : Z) (calls : nat) :
  3 <= pad_for ->
  merkleize hash_eth2 builtin_hash [chunk] pad_for calls = Raise TypeError.
Proof.
  intros Hpad.
  pose proof (bit_length_two_more (pad_for - 1) ltac:(lia)) as Htwo.
  destruct (bit_length (pad_for - 1)) as [|[|more]] eqn:Hmore; [lia | lia |].
  unfold merkleize. cbn [length].
  change (bit_length (Z.max (Z.of_nat 1 - 1) 0)) with 0%nat.
  rewrite Hmore. cbn [Nat.max for_range].
  rewrite (hbind_ok _ _ calls calls
             (<[0%nat:=PyBytes chunk]> (replicate (S (S more) + 1) PyNone))).
  - change (negb (Nat.shiftl 1 0 =? 1)%nat) with false. cbn iota.
    rewrite (hbind_ok _ _ calls calls
               (<[0%nat:=PyBytes chunk]> (replicate (S (S more) + 1) PyNone)))
      by reflexivity.
    apply hbind_raise. rewrite Nat.sub_0_r.
    apply (growth_raises _ chunk).
    + reflexivity.
    + rewrite length_insert, length_replicate. lia.
  - rewrite (hbind_ok _ _ calls calls
               (<[0%nat:=PyBytes chunk]> (replicate (S (S more) + 1) PyNone)));
      [reflexivity |].
    rewrite (hbind_ok _ _ calls calls chunk) by reflexivity.
    apply merge_first_leaf. rewrite length_replicate. lia.
Qed.

(** C3: merkleizing no chunk at all with the default pad target gives the
    depth-0 zero hash, 32 zero bytes, without hashing. *)
Theorem merkleize_empty (calls : nat) :
  merkleize hash_eth2 builtin_hash [] 1 calls = Ok (PyBytes ZERO_BYTES32, calls) /\
  zerohashes builtin_hash !! 0%nat = Some (PyBytes ZERO_BYTES32) /\
  ZERO_BYTES32 = replicate 32 x00.
Proof.
  split; [vm_compute; reflexivity |].
  split; [apply zerohashes_lookup_0 | reflexivity].
Qed.

Lemma pack_four_items (i1 i2 i3 i4 : bytes) :
  length i1 = 8%nat -> length i2 = 8%nat ->
  length i3 = 8%nat -> length i4 = 8%nat ->
  pack [i1; i2; i3; i4] = Ok [i1 ++ i2 ++ i3 ++ i4].
Proof.
  intros H1 H2 H3 H4. unfold pack. rewrite H1.
  change (get_items_per_chunk (Z.of_nat 8)) with (Ok (A := Z) 4).
  cbn [rbind]. change (Z.to_nat 4) with 4%nat.
  simp partition. cbn.
  change ((Z.of_nat 4 + (4 - 1)) / 4 - 1) with 0. cbn.
  change (Z.to_nat 0) with 0%nat. cbn.
  unfold ljust. rewrite !app_nil_r, !length_app, H1, H2, H3, H4.
  cbn. rewrite !app_nil_r. reflexivity.
Qed.

(** C4: a single chunk is its own root, and no hash is computed; four
    8-byte items pack into exactly one chunk, their concatenation, and
    merkleizing that packing returns the chunk unchanged. *)
Theorem single_chunk_identity (chunk i1 i2 i3 i4 : bytes) (calls : nat) :
  length i1 = 8%nat -> length i2 = 8%nat ->
  length i3 = 8%nat -> length i4 = 8%nat ->
  merkleize hash_eth2 builtin_hash [chunk] 1 calls = Ok (PyBytes chunk, calls) /\
  exists packed,
    pack [i1; i2; i3; i4] = Ok [packed] /\
    packed = i1 ++ i2 ++ i3 ++ i4 /\
    length packed = CHUNK_SIZE /\
    merkleize hash_eth2 builtin_hash [packed] 1 calls = Ok (PyBytes packed, calls).
Proof.
  intros H1 H2 H3 H4. split; [apply merkleize_single |].
  exists (i1 ++ i2 ++ i3 ++ i4).
  split; [apply pack_four_items; assumption |].
  split; [reflexivity |].
  split; [rewrite !length_app, H1, H2, H3, H4; reflexivity |].
  apply merkleize_single.
Qed.

(** C2: [merkleize] is not total. Growing the empty tree to a pad target of
    three leaves or more reads entry 1 of the zero-hash table, an integer,
    and concatenating it to the node raises [TypeError]; so does
    complementing five chunks to eight with the default pad target. *)
Theorem merkleize_raises_on_upper_zero_hash
    (pad_for : Z) (c1 c2 c3 c4 c5 : bytes) (calls : nat) :
  3 <= pad_for ->
  merkleize hash_eth2 builtin_hash [] pad_for calls = Raise TypeError /\
  merkleize hash_eth2 builtin_hash [] 3 calls = Raise TypeError /\
  merkleize hash_eth2 builtin_hash [c1; c2; c3; c4; c5] 1 calls = Raise TypeError.
Proof.
  intros Hpad. split; [apply merkleize_empty_raises, Hpad |].
  split; vm_compute; reflexivity.
Qed.

(** C5: raising the pad target of one chunk from 1 to 2 appends one
    combination with the level-0 zero hash, but a pad target of 3 makes
    [merkleize] raise [TypeError] instead of appending the combination with
    the level-1 zero hash; and for every chunk sequence, every pad target of
    3 or more that exceeds the next power of two of the chunk count makes
    [merkleize] raise. *)
Theorem merkleize_padding_raises_above_level_one
    (chunks : list bytes) (pad_for : Z) (chunk : bytes) (calls : nat) :
  get_next_power_of_two (Z.of_nat (length chunks)) < pad_for ->
  3 <= pad_for ->
  (exists e, merkleize hash_eth2 builtin_hash chunks pad_for calls = Raise e) /\
  merkleize hash_eth2 builtin_hash [chunk] pad_for calls = Raise TypeError /\
  merkleize hash_eth2 builtin_hash [chunk] 3 calls = Raise TypeError /\
  merkleize hash_eth2 builtin_hash [chunk] 2 calls =
    Ok (PyBytes (hash_eth2 (chunk ++ ZERO_BYTES32)), S calls) /\
  merkleize hash_eth2 builtin_hash [chunk] 1 calls = Ok (PyBytes chunk, calls).
Proof.
  intros Hnext Hpad.
  split.
  { apply merkleize_growth_fails.
    - apply pad_target_depth, Hnext.
    - apply bit_length_two_more. lia. }
  split; [apply merkleize_single_raises, Hpad |].
  repeat split; vm_compute; reflexivity.
Qed.

(** X1: roots of small trees: two chunks hash once; three chunks are
    complemented with the zero chunk; four chunks form the balanced tree. *)
Theorem merkleize_small_trees (a b c d : bytes) (calls : nat) :
  merkleize hash_eth2 builtin_hash [a; b] 1 calls =
    Ok (PyBytes (hash_eth2 (a ++ b)), S calls) /\
  merkleize hash_eth2 builtin_hash [a; b; c] 1 calls =
    Ok (PyBytes (hash_eth2 (hash_eth2 (a ++ b) ++ hash_eth2 (c ++ ZERO_BYTES32))),
        S (S (S calls))) /\
  merkleize hash_eth2 builtin_hash [a; b; c; d] 1 calls =
    Ok (PyBytes (hash_eth2 (hash_eth2 (a ++ b) ++ hash_eth2 (c ++ d))),
        S (S (S calls))).
Proof. repeat split; vm_compute; reflexivity. Qed.

(** *** Length mixing *)

(** C9: for every length that fits in 256 bits, [mix_in_length] returns
    [hash_eth2] of the root followed by the 32-byte little-endian encoding
    of the length, with exactly one hash invocation; for length 0 the
    encoding is 32 zero bytes. *)
Theorem mix_in_length_correct (root : bytes) (len : Z) (calls : nat) :
  0 <= len < 2 ^ 256 ->
  (exists encoded,
      length encoded = 32%nat /\
      from_bytes_little encoded = len /\
      mix_in_length hash_eth2 root len calls =
        Ok (PyBytes (hash_eth2 (root ++ encoded)), S calls)) /\
  mix_in_length hash_eth2 root 0 calls =
    Ok (PyBytes (hash_eth2 (root ++ replicate 32 x00)), S calls).
Proof.
  intros Hlen.
  assert (Hpow : 256 ^ Z.of_nat CHUNK_SIZE = 2 ^ 256) by reflexivity.
  assert (Hmix : forall n, 0 <= n < 2 ^ 256 ->
            mix_in_length hash_eth2 root n calls =
              Ok (PyBytes (hash_eth2 (root ++ le_digits 32 n)), S calls)).
  { intros n Hn. unfold mix_in_length, hbind, hlift.
    rewrite to_bytes_little_ok by (rewrite Hpow; exact Hn). reflexivity. }
  split.
  - exists (le_digits 32 len). split; [apply le_digits_length |].
    split; [| apply Hmix, Hlen].
    apply to_bytes_little_roundtrip. change (Z.of_nat 32) with (Z.of_nat CHUNK_SIZE).
    rewrite Hpow. exact Hlen.
  - rewrite Hmix by lia. rewrite le_digits_zero. reflexivity.
Qed.

End TreeFacts.

(** ** Packing a byte string *)

Lemma slice_chunk (b : bytes) (i : nat) :
  slice b (i * CHUNK_SIZE) ((i + 1) * CHUNK_SIZE) =
    take CHUNK_SIZE (drop (i * CHUNK_SIZE) b).
Proof. unfold slice. f_equal. lia. Qed.

(** The first [count] slices, glued together, are the first
    [count * CHUNK_SIZE] bytes. *)
Lemma concat_slices (b : bytes) (count : nat) :
  concat (map (fun i => slice b (i * CHUNK_SIZE) ((i + 1) * CHUNK_SIZE))
              (seq 0 count)) =
    take (count * CHUNK_SIZE) b.
Proof.
  induction count as [|count IH]; [reflexivity |].
  rewrite seq_S, map_app, concat_app, IH. cbn [map concat].
  rewrite app_nil_r, slice_chunk, Nat.add_0_l, take_take_drop.
  f_equal. lia.
Qed.

Lemma lookup_slices (b : bytes) (count i : nat) :
  (i < count)%nat ->
  map (fun i => slice b (i * CHUNK_SIZE) ((i + 1) * CHUNK_SIZE)) (seq 0 count) !! i =
    Some (slice b (i * CHUNK_SIZE) ((i + 1) * CHUNK_SIZE)).
Proof.
  intros Hi. rewrite list_lookup_fmap, lookup_seq_lt by exact Hi. reflexivity.
Qed.

Lemma ljust_length (b : bytes) (width : nat) (fill : byte) :
  (length b <= width)%nat -> length (ljust b width fill) = width.
Proof. intros Hb. unfold ljust. rewrite length_app, length_replicate. lia. Qed.

Lemma slices_full_length (b : bytes) (count : nat) :
  (count * CHUNK_SIZE <= length b)%nat ->
  Forall (fun chunk => length chunk = CHUNK_SIZE)
         (map (fun i => slice b (i * CHUNK_SIZE) ((i + 1) * CHUNK_SIZE))
              (seq 0 count)).
Proof.
  intros Hcount. apply Forall_forall. intros chunk Hin.
  apply list_elem_of_fmap in Hin as (i & -> & Hi). apply elem_of_seq in Hi.
  rewrite slice_chunk, length_take, length_drop.
  assert ((i + 1) * CHUNK_SIZE <= count * CHUNK_SIZE)%nat by (apply Nat.mul_le_mono_r; lia).
  lia.
Qed.

(** What [pack_bytes] returns, glued together: the input followed by zeros. *)
Lemma pack_bytes_concat (b : bytes) :
  exists padding,
    concat (pack_bytes b) = b ++ replicate padding x00 /\
    (padding < CHUNK_SIZE \/ b = [])%nat.
Proof.
  unfold pack_bytes.
  destruct (Nat.eqb_spec (length b) 0) as [Hempty | Hne].
  - apply nil_length_inv in Hempty as ->. exists CHUNK_SIZE.
    split; [| right; reflexivity]. cbn [concat]. rewrite app_nil_r. reflexivity.
  - pose proof (Nat.div_mod_eq (length b) CHUNK_SIZE) as Hdiv.
    assert (Hmod : (length b mod CHUNK_SIZE < CHUNK_SIZE)%nat)
      by (apply Nat.mod_upper_bound; discriminate).
    destruct (Nat.eqb_spec (length b mod CHUNK_SIZE) 0) as [Hfull | Hpart].
    + exists 0%nat. split; [| left; unfold CHUNK_SIZE; lia].
      rewrite concat_slices, take_ge by lia. cbn [replicate].
      rewrite app_nil_r. reflexivity.
    + exists (CHUNK_SIZE - length (drop (length b / CHUNK_SIZE * CHUNK_SIZE) b))%nat.
      split; [| left; rewrite length_drop; lia].
      rewrite concat_app, concat_slices. cbn [concat]. rewrite app_nil_r.
      unfold ljust. rewrite app_assoc, take_drop. reflexivity.
Qed.

(** C7: gluing the chunks of [pack_bytes b] together and trimming what lies
    beyond [length b] gives [b] back, for every [b]; what is trimmed is zero
    padding; every chunk has 32 bytes; and each full 32-byte slice of [b] is
    a chunk of the output as it is. *)
Theorem pack_bytes_roundtrip (b : bytes) :
  take (length b) (concat (pack_bytes b)) = b /\
  (exists padding,
      drop (length b) (concat (pack_bytes b)) = replicate padding x00) /\
  Forall (fun chunk => length chunk = CHUNK_SIZE) (pack_bytes b) /\
  (forall i, (i < length b / CHUNK_SIZE)%nat ->
             pack_bytes b !! i = Some (take CHUNK_SIZE (drop (i * CHUNK_SIZE) b))).
Proof.
  destruct (pack_bytes_concat b) as (padding & Hcat & _).
  split; [rewrite Hcat; apply take_app_length |].
  split; [exists padding; rewrite Hcat; apply drop_app_length |].
  pose proof (Nat.div_mod_eq (length b) CHUNK_SIZE) as Hdiv.
  assert (Hmod : (length b mod CHUNK_SIZE < CHUNK_SIZE)%nat)
    by (apply Nat.mod_upper_bound; discriminate).
  unfold pack_bytes.
  destruct (Nat.eqb_spec (length b) 0) as [Hempty | Hne].
  - split.
    + repeat constructor.
    + intros i Hi. rewrite Hempty in Hi. cbn in Hi. lia.
  - destruct (Nat.eqb_spec (length b mod CHUNK_SIZE) 0) as [Hfull | Hpart].
    + split; [apply slices_full_length; lia |].
      intros i Hi. rewrite lookup_slices by exact Hi. f_equal. apply slice_chunk.
    + split.
      * apply Forall_app. split; [apply slices_full_length; lia |].
        repeat constructor. apply ljust_length. rewrite length_drop. lia.
      * intros i Hi. rewrite lookup_app_l by (rewrite length_map, length_seq; exact Hi).
        rewrite lookup_slices by exact Hi. f_equal. apply slice_chunk.
Qed.

Example pack_bytes_empty : pack_bytes [] = [replicate 32 x00].
Proof. reflexivity. Qed.

Example pack_bytes_exact_chunk :
  pack_bytes (replicate 32 x07) = [replicate 32 x07].
Proof. reflexivity. Qed.

Example pack_bytes_partial :
  pack_bytes (replicate 33 x07) = [replicate 32 x07; x07 :: replicate 31 x00].
Proof. reflexivity. Qed.

(** ** Packing items of one size *)

Section PackFacts.

Local Open Scope nat_scope.

Lemma partition_nil {A : Type} (n : nat) (pad : A) : partition n [] pad = [].
Proof. destruct n; simp partition; reflexivity. Qed.

Lemma partition_step {A : Type} (n : nat) (xs : list A) (pad : A) :
  0 < n -> xs <> [] ->
  partition n xs pad =
    (take n xs ++ replicate (n - length xs) pad) :: partition n (drop n xs) pad.
Proof.
  intros Hn Hxs. destruct n as [|m]; [lia |].
  destruct xs as [|x rest]; [congruence |].
  simp partition. reflexivity.
Qed.

Lemma ceil_div_step (len n : nat) :
  0 < n -> 0 < len -> (len + (n - 1)) / n = S ((len - n + (n - 1)) / n).
Proof.
  intros Hn Hlen. destruct (Nat.le_gt_cases n len) as [Hge | Hlt].
  - replace (len + (n - 1)) with ((len - n + (n - 1)) + 1 * n) by lia.
    rewrite Nat.div_add by lia. lia.
  - replace (len - n + (n - 1)) with (n - 1) by lia.
    rewrite (Nat.div_small (n - 1)) by lia.
    symmetry. apply (Nat.div_unique _ _ _ (len - 1)); lia.
Qed.

(** The number of groups is the number of items divided by the group
    size, rounded up. *)
Lemma partition_length {A : Type} (n : nat) (xs : list A) (pad : A) :
  0 < n -> length (partition n xs pad) = (length xs + (n - 1)) / n.
Proof.
  intros Hn. remember (length xs) as len eqn:Hlen. revert xs Hlen.
  induction len as [len IH] using lt_wf_ind. intros xs Hlen.
  destruct xs as [|x rest].
  - rewrite partition_nil. simpl in Hlen. subst len.
    rewrite Nat.div_small by lia. reflexivity.
  - rewrite partition_step by (lia || discriminate). cbn [length].
    rewrite (IH (length (drop n (x :: rest)))).
    + rewrite length_drop, <- Hlen. symmetry. apply ceil_div_step; [lia |].
      subst len. simpl. lia.
    + rewrite length_drop, <- Hlen. subst len. simpl. lia.
    + reflexivity.
Qed.

Lemma ceil_div_bounds (len n : nat) :
  0 < n ->
  len <= (len + (n - 1)) / n * n < len + n.
Proof.
  intros Hn.
  pose proof (Nat.div_mod_eq (len + (n - 1)) n) as Hdiv.
  pose proof (Nat.mod_upper_bound (len + (n - 1)) n ltac:(lia)) as Hmod.
  lia.
Qed.

Lemma concat_replicate_nil {A : Type} (k : nat) :
  concat (replicate k (@nil A)) = [].
Proof. induction k as [|k IH]; [reflexivity | exact IH]. Qed.

Lemma concat_uniform_length (items : list bytes) (s : nat) :
  Forall (fun item => length item = s) items ->
  length (concat items) = length items * s.
Proof.
  induction 1 as [|item items Hitem _ IH]; [reflexivity |].
  cbn [concat length]. rewrite length_app, IH, Hitem. lia.
Qed.

Lemma last_group {A : Type} (groups : list A) :
  groups <> [] -> exists g, drop (length groups - 1) groups = [g].
Proof.
  intros Hne. destruct groups as [|g0 rest] using rev_ind; [congruence |].
  exists g0. rewrite length_app. cbn [length].
  replace (length rest + 1 - 1) with (length rest) by lia.
  apply drop_app_length.
Qed.

Lemma chunk_slices_nil : chunk_slices [] = [].
Proof. reflexivity. Qed.

Lemma chunk_slices_app (x y : bytes) :
  length x = CHUNK_SIZE -> chunk_slices (x ++ y) = x :: chunk_slices y.
Proof.
  intros Hx. unfold chunk_slices.
  rewrite length_app, Hx.
  replace (CHUNK_SIZE + length y) with (1 * CHUNK_SIZE + length y) by lia.
  rewrite Nat.div_add_l by discriminate.
  cbn [Nat.add seq map]. f_equal.
  - rewrite slice_chunk. cbn [Nat.mul drop]. rewrite <- Hx. apply take_app_length.
  - rewrite <- seq_shift, map_map. apply map_ext. intros i.
    rewrite !slice_chunk. f_equal.
    replace (S i * CHUNK_SIZE) with (length x + i * CHUNK_SIZE) by lia.
    rewrite <- drop_drop, drop_app_length. reflexivity.
Qed.

Lemma pad_to_chunk_multiple_app (x y : bytes) :
  length x = CHUNK_SIZE ->
  pad_to_chunk_multiple (x ++ y) = x ++ pad_to_chunk_multiple y.
Proof.
  intros Hx. unfold pad_to_chunk_multiple.
  rewrite length_app, Hx, <- app_assoc.
  replace (CHUNK_SIZE + length y) with (length y + 1 * CHUNK_SIZE) by lia.
  rewrite Nat.Div0.mod_add. reflexivity.
Qed.

Lemma pad_to_chunk_multiple_short (b : bytes) :
  0 < length b <= CHUNK_SIZE ->
  pad_to_chunk_multiple b = ljust b CHUNK_SIZE x00.
Proof.
  intros [Hpos Hle]. unfold pad_to_chunk_multiple, ljust. do 2 f_equal.
  destruct (Nat.eq_dec (length b) CHUNK_SIZE) as [-> | Hne].
  - reflexivity.
  - rewrite (Nat.mod_small (length b)) by lia. apply Nat.mod_small. lia.
Qed.

Lemma chunk_slices_short (b : bytes) :
  0 < length b <= CHUNK_SIZE ->
  chunk_slices (pad_to_chunk_multiple b) = [ljust b CHUNK_SIZE x00].
Proof.
  intros Hb. rewrite pad_to_chunk_multiple_short by exact Hb.
  rewrite <- (app_nil_r (ljust b CHUNK_SIZE x00)) at 1.
  rewrite chunk_slices_app by (apply ljust_length; lia).
  reflexivity.
Qed.

(** The joined groups, the last one padded, are the slices of the padded
    concatenation. *)
Lemma packed_groups (items : list bytes) (s per_chunk : nat) :
  per_chunk * s = CHUNK_SIZE ->
  items <> [] ->
  Forall (fun item => length item = s) items ->
  let groups := map (@concat byte) (partition per_chunk items []) in
  take (length groups - 1) groups ++
    map (fun group => ljust group CHUNK_SIZE x00)
        (drop (length groups - 1) groups) =
  pack_by_concatenation items.
Proof.
  intros Hsize. assert (Hper : 0 < per_chunk) by (unfold CHUNK_SIZE in Hsize; lia).
  assert (Hs : 0 < s) by (unfold CHUNK_SIZE in Hsize; lia).
  remember (length items) as len eqn:Hlen. revert items Hlen.
  induction len as [len IH] using lt_wf_ind. intros items Hlen Hne Huniform.
  cbn zeta. rewrite partition_step by assumption.
  assert (Hpos : 0 < length items) by (destruct items; [congruence | simpl; lia]).
  destruct (Nat.le_gt_cases (length items) per_chunk) as [Hfew | Hmany].
  - (* one group *)
    rewrite (take_ge items per_chunk), (drop_ge items per_chunk) by lia.
    rewrite partition_nil.
    cbn [map length Nat.sub take drop app].
    rewrite concat_app, concat_replicate_nil, app_nil_r.
    unfold pack_by_concatenation. rewrite chunk_slices_short; [reflexivity |].
    rewrite (concat_uniform_length items s Huniform).
    split; [lia |]. rewrite <- Hsize. apply Nat.mul_le_mono_r. exact Hfew.
  - (* a full group, then the rest *)
    replace (per_chunk - length items) with 0 by lia.
    cbn [replicate]. rewrite app_nil_r.
    assert (Hrest : drop per_chunk items <> []).
    { intros Hnil. apply (f_equal length) in Hnil.
      rewrite length_drop in Hnil. simpl in Hnil. lia. }
    assert (Hgroups : partition per_chunk (drop per_chunk items) [] <> []).
    { rewrite partition_step by assumption. discriminate. }
    set (rest := partition per_chunk (drop per_chunk items) []) in *.
    assert (Hcount : 0 < length (map (@concat byte) rest)).
    { rewrite length_map. destruct rest; [congruence | simpl; lia]. }
    cbn [map length].
    replace (S (length (map (@concat byte) rest)) - 1)
      with (S (length (map (@concat byte) rest) - 1)) by lia.
    cbn [take drop app].
    specialize (IH (length (drop per_chunk items))).
    rewrite length_drop, <- Hlen in IH.
    specialize (IH ltac:(lia) (drop per_chunk items)).
    rewrite length_drop, <- Hlen in IH.
    specialize (IH eq_refl Hrest (Forall_drop _ _ _ Huniform)).
    cbn zeta in IH. fold rest in IH. rewrite IH.
    unfold pack_by_concatenation.
    rewrite <- (take_drop per_chunk items) at 3.
    assert (Hhead : length (concat (take per_chunk items)) = CHUNK_SIZE).
    { rewrite (concat_uniform_length _ s (Forall_take _ _ _ Huniform)).
      rewrite length_take, Nat.min_l by lia. exact Hsize. }
    rewrite concat_app, pad_to_chunk_multiple_app, chunk_slices_app by exact Hhead.
    reflexivity.
Qed.

Lemma items_per_chunk_of_size (s : nat) :
  0 < s -> CHUNK_SIZE mod s = 0 ->
  get_items_per_chunk (Z.of_nat s) = Ok (Z.of_nat (CHUNK_SIZE / s)) /\
  CHUNK_SIZE / s * s = CHUNK_SIZE.
Proof.
  intros Hs Hmod.
  assert (Hmul : CHUNK_SIZE / s * s = CHUNK_SIZE).
  { pose proof (Nat.div_mod_eq CHUNK_SIZE s). lia. }
  split; [| exact Hmul].
  rewrite get_items_per_chunk_divisor.
  - rewrite Nat2Z.inj_div. reflexivity.
  - lia.
  - exists (Z.of_nat (CHUNK_SIZE / s)). lia.
Qed.

(** [pack] on items of one size that divides the chunk size. *)
Lemma pack_uniform (items : list bytes) (s : nat) :
  items <> [] -> 0 < s -> CHUNK_SIZE mod s = 0 ->
  Forall (fun item => length item = s) items ->
  pack items = Ok (pack_by_concatenation items) /\
  length (pack_by_concatenation items) =
    (length items + (CHUNK_SIZE / s - 1)) / (CHUNK_SIZE / s).
Proof.
  intros Hne Hs Hmod Huniform.
  destruct (items_per_chunk_of_size s Hs Hmod) as [Hipc Hmul].
  set (per_chunk := CHUNK_SIZE / s) in *.
  assert (Hper : 0 < per_chunk) by (unfold CHUNK_SIZE in Hmul; lia).
  pose proof (packed_groups items s per_chunk Hmul Hne Huniform) as Hgroups.
  cbn zeta in Hgroups.
  pose proof (partition_length per_chunk items (@nil byte) Hper) as Hcount.
  set (groups := map (@concat byte) (partition per_chunk items [])) in *.
  assert (Hlen : length groups = (length items + (per_chunk - 1)) / per_chunk)
    by (unfold groups; rewrite length_map; exact Hcount).
  assert (Hnonempty : groups <> []).
  { unfold groups. rewrite partition_step by assumption. discriminate. }
  destruct (last_group groups Hnonempty) as [g Hg].
  assert (Hpos : 0 < length groups) by (destruct groups; [congruence | simpl; lia]).
  split.
  - rewrite <- Hgroups, Hg. cbn [map].
    unfold pack. destruct items as [|item items']; [congruence |].
    rewrite (Forall_inv Huniform), Hipc. cbn [rbind].
    rewrite Nat2Z.id. fold groups.
    replace ((Z.of_nat (length (item :: items')) + (Z.of_nat per_chunk - 1))
               / Z.of_nat per_chunk - 1)%Z
      with (Z.of_nat (length groups - 1)).
    + unfold take_iter.
      destruct (Z.ltb_spec (Z.of_nat (length groups - 1)) 0); [lia |].
      cbn [rbind]. rewrite Nat2Z.id, Hg. reflexivity.
    + rewrite Hlen, Nat2Z.inj_sub, Nat2Z.inj_div, Nat2Z.inj_add, Nat2Z.inj_sub by lia.
      reflexivity.
  - rewrite <- Hgroups, Hg, length_app, length_take. cbn [map length]. lia.
Qed.

(** C6: for a non-empty sequence of items of one size [s > 0] that divides
    [CHUNK_SIZE], [pack] returns the number of items divided by
    [CHUNK_SIZE / s], rounded up, many chunks, and they are the 32-byte
    slices of the concatenation of the items zero-padded on the right to a
    multiple of [CHUNK_SIZE]; on the empty sequence [pack] returns the one
    chunk of 32 zero bytes. *)
Theorem pack_round_counts (items : list bytes) (s : nat) :
  items <> [] -> 0 < s -> CHUNK_SIZE mod s = 0 ->
  Forall (fun item => length item = s) items ->
  (exists chunks,
      pack items = Ok chunks /\
      length items <= length chunks * (CHUNK_SIZE / s) < length items + CHUNK_SIZE / s /\
      chunks = pack_by_concatenation items) /\
  pack [] = Ok [replicate 32 x00].
Proof.
  intros Hne Hs Hmod Huniform. split; [| reflexivity].
  destruct (pack_uniform items s Hne Hs Hmod Huniform) as [Hpack Hlen].
  exists (pack_by_concatenation items).
  split; [exact Hpack |]. split; [| reflexivity].
  rewrite Hlen. apply ceil_div_bounds.
  destruct (items_per_chunk_of_size s Hs Hmod) as [_ Hmul].
  unfold CHUNK_SIZE in Hmul |- *. lia.
Qed.

End PackFacts.

(** ** The theorems at concrete inputs *)

Lemma pack_round_counts_witness :
  let items := [replicate 16 x01; replicate 16 x02; replicate 16 x03] in
  (exists chunks,
      pack items = Ok chunks /\
      (length items <= length chunks * (CHUNK_SIZE / 16) < length items + CHUNK_SIZE / 16)%nat /\
      chunks = pack_by_concatenation items) /\
  pack [] = Ok [replicate 32 x00].
Proof.
  apply (pack_round_counts
           [replicate 16 x01; replicate 16 x02; replicate 16 x03] 16).
  - discriminate.
  - lia.
  - reflexivity.
  - repeat constructor.
Defined.

Example pack_three_halves :
  pack [replicate 16 x01; replicate 16 x02; replicate 16 x03] =
    Ok [replicate 16 x01 ++ replicate 16 x02;
        replicate 16 x03 ++ replicate 16 x00].
Proof. vm_compute. reflexivity. Qed.

Lemma single_chunk_identity_witness :
  let i1 := replicate 8 x01 in
  let i2 := replicate 8 x02 in
  let i3 := replicate 8 x03 in
  let i4 := replicate 8 x04 in
  let chunk := replicate 32 xff in
  merkleize sample_hash_eth2 sample_builtin_hash [chunk] 1 0%nat =
    Ok (PyBytes chunk, 0%nat) /\
  exists packed,
    pack [i1; i2; i3; i4] = Ok [packed] /\
    packed = i1 ++ i2 ++ i3 ++ i4 /\
    length packed = CHUNK_SIZE /\
    merkleize sample_hash_eth2 sample_builtin_hash [packed] 1 0%nat =
      Ok (PyBytes packed, 0%nat).
Proof.
  apply (single_chunk_identity sample_hash_eth2 sample_builtin_hash
           (replicate 32 xff) (replicate 8 x01) (replicate 8 x02)
           (replicate 8 x03) (replicate 8 x04) 0%nat); reflexivity.
Defined.

Lemma mix_in_length_correct_witness :
  0 <= 4294967295 < 2 ^ 256 /\
  (exists encoded,
      length encoded = 32%nat /\
      from_bytes_little encoded = 4294967295 /\
      mix_in_length sample_hash_eth2 (replicate 32 xaa) 4294967295 0%nat =
        Ok (PyBytes (sample_hash_eth2 (replicate 32 xaa ++ encoded)), 1%nat)) /\
  mix_in_length sample_hash_eth2 (replicate 32 xaa) 0 0%nat =
    Ok (PyBytes (sample_hash_eth2 (replicate 32 xaa ++ replicate 32 x00)), 1%nat).
Proof.
  assert (Hlen : 0 <= 4294967295 < 2 ^ 256) by (split; [lia | reflexivity]).
  split; [exact Hlen |].
  exact (mix_in_length_correct sample_hash_eth2 (replicate 32 xaa)
           4294967295 0%nat Hlen).
Defined.

Example mix_in_length_too_long (root : bytes) (calls : nat) :
  mix_in_length sample_hash_eth2 root (2 ^ 256) calls = Raise OverflowError.
Proof. reflexivity. Qed.

Lemma merkleize_raises_on_upper_zero_hash_witness :
  3 <= 3 /\
  merkleize sample_hash_eth2 sample_builtin_hash [] 3 0%nat = Raise TypeError /\
  merkleize sample_hash_eth2 sample_builtin_hash [] 3 0%nat = Raise TypeError /\
  merkleize sample_hash_eth2 sample_builtin_hash
    [replicate 32 x01; replicate 32 x02; replicate 32 x03;
     replicate 32 x04; replicate 32 x05] 1 0%nat = Raise TypeError.
Proof.
  assert (Hpad : 3 <= 3) by lia.
  split; [exact Hpad |].
  exact (merkleize_raises_on_upper_zero_hash sample_hash_eth2 sample_builtin_hash
           3 (replicate 32 x01) (replicate 32 x02) (replicate 32 x03)
           (replicate 32 x04) (replicate 32 x05) 0%nat Hpad).
Defined.

Lemma merkleize_padding_raises_above_level_one_witness :
  let chunk := replicate 32 xab in
  get_next_power_of_two (Z.of_nat (length [chunk])) < 3 /\
  3 <= 3 /\
  (exists e, merkleize sample_hash_eth2 sample_builtin_hash [chunk] 3 0%nat = Raise e) /\
  merkleize sample_hash_eth2 sample_builtin_hash [chunk] 3 0%nat = Raise TypeError /\
  merkleize sample_hash_eth2 sample_builtin_hash [chunk] 3 0%nat = Raise TypeError /\
  merkleize sample_hash_eth2 sample_builtin_hash [chunk] 2 0%nat =
    Ok (PyBytes (sample_hash_eth2 (chunk ++ ZERO_BYTES32)), 1%nat) /\
  merkleize sample_hash_eth2 sample_builtin_hash [chunk] 1 0%nat =
    Ok (PyBytes chunk, 0%nat).
Proof.
  assert (Hnext : get_next_power_of_two (Z.of_nat (length [replicate 32 xab])) < 3)
    by reflexivity.
  assert (Hpad : 3 <= 3) by lia.
  split; [exact Hnext |]. split; [exact Hpad |].
  exact (merkleize_padding_raises_above_level_one sample_hash_eth2
           sample_builtin_hash [replicate 32 xab] 3 (replicate 32 xab) 0%nat
           Hnext Hpad).
Defined.

(** * Further properties of the helpers *)

(** ** Next power of two *)

(** X2: for a positive [value], [get_next_power_of_two] returns the least
    power of two that is at least [value]: a power of two, not below
    [value], and below twice [value]. *)
Theorem next_power_of_two_is_least (value : Z) :
  1 <= value ->
  exists k : nat,
    get_next_power_of_two value = 2 ^ Z.of_nat k /\
    value <= get_next_power_of_two value < 2 * value.
Proof.
  intros Hvalue. unfold get_next_power_of_two.
  destruct (Z.leb_spec value 0) as [Hneg | _]; [lia |].
  exists (bit_length (value - 1)). split; [reflexivity |].
  unfold bit_length. destruct (Z.eqb_spec (value - 1) 0) as [Hone | Hmore].
  - replace value with 1 by lia. simpl. lia.
  - rewrite Z.abs_eq by lia.
    pose proof (Z.log2_spec (value - 1) ltac:(lia)) as [Hlow Hhigh].
    pose proof (Z.log2_nonneg (value - 1)) as Hlog.
    rewrite Z2Nat.id by lia.
    rewrite Z.pow_succ_r in Hhigh by lia.
    replace (Z.log2 (value - 1) + 1) with (Z.succ (Z.log2 (value - 1))) by lia.
    rewrite Z.pow_succ_r by lia. lia.
Qed.

Lemma next_power_of_two_is_least_witness :
  1 <= 5 /\
  exists k : nat,
    get_next_power_of_two 5 = 2 ^ Z.of_nat k /\
    5 <= get_next_power_of_two 5 < 2 * 5.
Proof.
  assert (Hvalue : 1 <= 5) by lia.
  split; [exact Hvalue | exact (next_power_of_two_is_least 5 Hvalue)].
Defined.

(** On zero and on every negative integer [get_next_power_of_two]
    returns 1. *)
Theorem next_power_of_two_nonpositive (value : Z) :
  value <= 0 -> get_next_power_of_two value = 1.
Proof.
  intros Hvalue. unfold get_next_power_of_two.
  destruct (Z.leb_spec value 0); [reflexivity | lia].
Qed.

Lemma next_power_of_two_nonpositive_witness :
  -7 <= 0 /\ get_next_power_of_two (-7) = 1.
Proof.
  assert (Hvalue : -7 <= 0) by lia.
  split; [exact Hvalue | exact (next_power_of_two_nonpositive (-7) Hvalue)].
Defined.

(** ** Offsets, the other way round *)

Lemma byte_of_Z_of_byte (b : byte) : byte_of_Z (Z_of_byte b) = b.
Proof.
  unfold byte_of_Z. pose proof (Z_of_byte_range b) as Hb.
  rewrite Z.mod_small by exact Hb. unfold Z_of_byte.
  rewrite N2Z.id, Byte.of_to_N. reflexivity.
Qed.

Lemma from_bytes_little_range (data : bytes) :
  0 <= from_bytes_little data < 256 ^ Z.of_nat (length data).
Proof.
  induction data as [|b rest IH]; [simpl; lia |].
  cbn [from_bytes_little length]. rewrite Nat2Z.inj_succ, Z.pow_succ_r by lia.
  pose proof (Z_of_byte_range b). lia.
Qed.

Lemma le_digits_from_bytes (data : bytes) :
  le_digits (length data) (from_bytes_little data) = data.
Proof.
  induction data as [|b rest IH]; [reflexivity |].
  cbn [from_bytes_little length le_digits].
  pose proof (Z_of_byte_range b) as Hb. f_equal.
  - unfold byte_of_Z.
    replace ((Z_of_byte b + 256 * from_bytes_little rest) mod 256)
      with (Z_of_byte b).
    + unfold Z_of_byte. rewrite N2Z.id, Byte.of_to_N. reflexivity.
    + replace (Z_of_byte b + 256 * from_bytes_little rest)
        with (Z_of_byte b + from_bytes_little rest * 256) by lia.
      rewrite Z.mod_add by lia. symmetry. apply Z.mod_small, Hb.
  - replace ((Z_of_byte b + 256 * from_bytes_little rest) / 256)
      with (from_bytes_little rest); [exact IH |].
    replace (Z_of_byte b + 256 * from_bytes_little rest)
      with (Z_of_byte b + from_bytes_little rest * 256) by lia.
    rewrite Z.div_add by lia.
    rewrite (Z.div_small (Z_of_byte b)) by exact Hb. lia.
Qed.

Lemma four_bytes_decode_then_encode (data : bytes) :
  length data = OFFSET_SIZE ->
  0 <= decode_offset data < 2 ^ 32 /\
  encode_offset (decode_offset data) = Ok data.
Proof.
  intros Hlen. unfold decode_offset, encode_offset.
  pose proof (from_bytes_little_range data) as Hrange. rewrite Hlen in Hrange.
  split; [exact Hrange |].
  rewrite to_bytes_little_ok by exact Hrange.
  rewrite <- Hlen. f_equal. apply le_digits_from_bytes.
Qed.

(** X3: every byte string of exactly [OFFSET_SIZE] bytes decodes to an
    offset below [2^32], and encoding that offset gives the same four bytes
    back. *)
Theorem offset_decode_then_encode (data : bytes) :
  length data = OFFSET_SIZE ->
  0 <= decode_offset data < 2 ^ 32 /\
  encode_offset (decode_offset data) = Ok data.
Proof. apply four_bytes_decode_then_encode. Qed.

Lemma offset_decode_then_encode_witness :
  length [x0a; x00; xff; x7f] = OFFSET_SIZE /\
  0 <= decode_offset [x0a; x00; xff; x7f] < 2 ^ 32 /\
  encode_offset (decode_offset [x0a; x00; xff; x7f]) = Ok [x0a; x00; xff; x7f].
Proof.
  assert (Hlen : length [x0a; x00; xff; x7f] = OFFSET_SIZE) by reflexivity.
  split; [exact Hlen | exact (offset_decode_then_encode _ Hlen)].
Defined.

(** X4: [encode_offset] raises, and then [OverflowError], exactly on the
    negative offsets and on those that do not fit in four bytes. *)
Theorem encode_offset_overflow (offset : Z) :
  (encode_offset offset = Raise OverflowError <-> offset < 0 \/ 2 ^ 32 <= offset) /\
  (forall e, encode_offset offset = Raise e -> e = OverflowError).
Proof.
  unfold encode_offset, to_bytes_little.
  change (256 ^ Z.of_nat OFFSET_SIZE) with (2 ^ 32).
  destruct (Z.ltb_spec offset 0) as [Hneg | Hpos].
  - split; [split; [lia | reflexivity] | congruence].
  - destruct (Z.leb_spec (2 ^ 32) offset) as [Hbig | Hfit].
    + split; [split; [lia | reflexivity] | congruence].
    + split; [split; [discriminate | lia] | discriminate].
Qed.

(** X5: a byte string of any length decodes to a non-negative integer
    below [256 ^ length]; [decode_offset] never fails and does not check
    that it is given [OFFSET_SIZE] bytes. *)
Theorem decode_offset_range (data : bytes) :
  0 <= decode_offset data < 256 ^ Z.of_nat (length data).
Proof. apply from_bytes_little_range. Qed.

(** ** Reading exact byte counts *)

Lemma read_exact_in_range (num_bytes : Z) (stream : bytes) :
  0 <= num_bytes <= Z.of_nat (length stream) ->
  read_exact num_bytes stream =
    ReadOk (take (Z.to_nat num_bytes) stream) (drop (Z.to_nat num_bytes) stream).
Proof.
  intros Hrange. unfold read_exact, stream_read.
  destruct (Z.ltb_spec num_bytes 0); [lia |].
  rewrite length_take, Nat.min_l by lia.
  rewrite Z2Nat.id, Z.eqb_refl by lia. reflexivity.
Qed.

Lemma read_exact_out_of_range (num_bytes : Z) (stream : bytes) :
  num_bytes < 0 \/ Z.of_nat (length stream) < num_bytes ->
  read_exact num_bytes stream = DeserializationError num_bytes (length stream).
Proof.
  intros Hout. unfold read_exact, stream_read.
  destruct (Z.ltb_spec num_bytes 0) as [Hneg | Hpos].
  - destruct (Z.eqb_spec (Z.of_nat (length stream)) num_bytes); [lia | reflexivity].
  - rewrite length_take, Nat.min_r by lia.
    destruct (Z.eqb_spec (Z.of_nat (length stream)) num_bytes); [lia | reflexivity].
Qed.



(** X7: reading an offset back from a stream that starts with an encoded
    offset gives the offset and leaves the stream right after its four
    bytes. *)
Theorem s_decode_offset_roundtrip (offset : Z) (rest : bytes) :
  0 <= offset < 2 ^ 32 ->
  exists data,
    encode_offset offset = Ok data /\
    s_decode_offset (data ++ rest) = ReadOk offset rest.
Proof.
  intros Hoffset.
  assert (Hfit : 0 <= offset < 256 ^ Z.of_nat OFFSET_SIZE) by exact Hoffset.
  exists (le_digits OFFSET_SIZE offset).
  split; [apply to_bytes_little_ok, Hfit |].
  unfold s_decode_offset. rewrite read_exact_in_range.
  - rewrite Nat2Z.id.
    rewrite <- (le_digits_length OFFSET_SIZE offset) at 1 3.
    rewrite take_app_length, drop_app_length. unfold decode_offset.
    rewrite to_bytes_little_roundtrip by exact Hfit. reflexivity.
  - rewrite length_app, le_digits_length. lia.
Qed.

Lemma s_decode_offset_roundtrip_witness :
  0 <= 66051 < 2 ^ 32 /\
  exists data,
    encode_offset 66051 = Ok data /\
    s_decode_offset (data ++ [xaa; xbb]) = ReadOk 66051 [xaa; xbb].
Proof.
  assert (Hoffset : 0 <= 66051 < 2 ^ 32) by lia.
  split; [exact Hoffset | exact (s_decode_offset_roundtrip 66051 [xaa; xbb] Hoffset)].
Defined.

(** X8: on a stream with fewer than four bytes left [s_decode_offset]
    raises [DeserializationError], asking for 4 bytes and reporting how many
    there were; with four bytes or more it always returns an offset below
    [2^32] and consumes exactly four bytes. *)
Theorem s_decode_offset_short_or_four (stream : bytes) :
  ((length stream < 4)%nat ->
   s_decode_offset stream = DeserializationError 4 (length stream)) /\
  ((4 <= length stream)%nat ->
   exists offset,
     s_decode_offset stream = ReadOk offset (drop 4 stream) /\
     0 <= offset < 2 ^ 32 /\
     encode_offset offset = Ok (take 4 stream)).
Proof.
  unfold s_decode_offset. split.
  - intros Hshort.
    rewrite read_exact_out_of_range by (unfold OFFSET_SIZE; lia). reflexivity.
  - intros Hlong. rewrite read_exact_in_range by (unfold OFFSET_SIZE; lia).
    rewrite Nat2Z.id. exists (decode_offset (take 4 stream)).
    split; [reflexivity |].
    apply four_bytes_decode_then_encode.
    rewrite length_take. unfold OFFSET_SIZE. lia.
Qed.

(** ** Duplicates *)

Section Duplicates.

Context {A : Type} `{EqDecision A}.

Local Open Scope nat_scope.

Lemma counter_get_add (x y : A) (counts : list (A * nat)) :
  counter_get (counter_add x counts) y =
    if decide (y = x) then S (counter_get counts y) else counter_get counts y.
Proof.
  induction counts as [|[z n] rest IH]; simpl.
  - destruct (decide (y = x)); reflexivity.
  - destruct (decide (x = z)) as [-> | Hxz]; simpl.
    + destruct (decide (y = z)); reflexivity.
    + rewrite IH. destruct (decide (y = z)) as [-> | Hyz]; [| reflexivity].
      destruct (decide (z = x)); [congruence | reflexivity].
Qed.

Lemma counter_add_keys (x k : A) (counts : list (A * nat)) :
  k ∈ map fst (counter_add x counts) -> k = x \/ k ∈ map fst counts.
Proof.
  induction counts as [|[z n] rest IH]; simpl.
  - rewrite list_elem_of_singleton. auto.
  - destruct (decide (x = z)) as [-> | Hxz]; simpl; rewrite !elem_of_cons.
    + auto.
    + intros [-> | Hin]; [auto |]. destruct (IH Hin); auto.
Qed.

Lemma counter_add_NoDup (x : A) (counts : list (A * nat)) :
  NoDup (map fst counts) -> NoDup (map fst (counter_add x counts)).
Proof.
  induction counts as [|[z n] rest IH]; simpl.
  - intros _. apply NoDup_singleton.
  - rewrite NoDup_cons. intros [Hz Hrest].
    destruct (decide (x = z)) as [-> | Hxz]; simpl; rewrite NoDup_cons.
    + auto.
    + split; [| auto]. intros Hin.
      apply counter_add_keys in Hin as [-> | Hin]; [congruence | contradiction].
Qed.

Lemma counter_get_of_item (y : A) (n : nat) (counts : list (A * nat)) :
  NoDup (map fst counts) -> (y, n) ∈ counts -> counter_get counts y = n.
Proof.
  induction counts as [|[z m] rest IH]; simpl.
  - intros _ Hin. apply elem_of_nil in Hin. contradiction.
  - rewrite NoDup_cons, elem_of_cons. intros [Hz Hrest] [Heq | Hin].
    + injection Heq as -> ->. destruct (decide (z = z)); [reflexivity | congruence].
    + destruct (decide (y = z)) as [-> | Hyz]; [| auto].
      exfalso. apply Hz. apply list_elem_of_fmap. exists (z, n). auto.
Qed.

Lemma counter_item_of_get (y : A) (counts : list (A * nat)) :
  counter_get counts y <> 0 -> (y, counter_get counts y) ∈ counts.
Proof.
  induction counts as [|[z m] rest IH]; simpl; [congruence |].
  destruct (decide (y = z)) as [-> | Hyz]; rewrite elem_of_cons; auto.
Qed.

Lemma counter_fold (values : list A) (counts : list (A * nat)) :
  NoDup (map fst counts) ->
  NoDup (map fst (fold_left (fun counts x => counter_add x counts) values counts)) /\
  forall y,
    counter_get (fold_left (fun counts x => counter_add x counts) values counts) y =
      counter_get counts y + occurrences y values.
Proof.
  revert counts. induction values as [|x rest IH]; intros counts Hkeys; simpl.
  - split; [exact Hkeys | intros y; lia].
  - destruct (IH (counter_add x counts) (counter_add_NoDup x counts Hkeys))
      as [Hkeys' Hget].
    split; [exact Hkeys' |]. intros y. rewrite Hget, counter_get_add.
    destruct (decide (y = x)); lia.
Qed.

(** The counter holds, for each value, the number of its occurrences. *)
Lemma Counter_counts (values : list A) :
  NoDup (map fst (Counter values)) /\
  forall y, counter_get (Counter values) y = occurrences y values.
Proof.
  destruct (counter_fold values [] (NoDup_nil_2 (A:=A))) as [Hkeys Hget].
  split; [exact Hkeys | intros y; unfold Counter; rewrite (Hget y); reflexivity].
Qed.

Lemma filter_keys_NoDup (keep : A * nat -> bool) (counts : list (A * nat)) :
  NoDup (map fst counts) -> NoDup (map fst (List.filter keep counts)).
Proof.
  induction counts as [|item rest IH]; simpl; [auto |].
  rewrite NoDup_cons. intros [Hitem Hrest].
  destruct (keep item); simpl; [| auto].
  rewrite NoDup_cons. split; [| auto]. intros Hin. apply Hitem.
  apply list_elem_of_fmap in Hin as (other & Heq & Hother).
  apply list_elem_of_In, filter_In in Hother as [Hother _].
  apply list_elem_of_fmap. exists other. split; [exact Heq |].
  apply list_elem_of_In, Hother.
Qed.

Lemma occurrences_elem (x : A) (values : list A) :
  x ∈ values <-> 1 <= occurrences x values.
Proof.
  induction values as [|y rest IH]; simpl.
  - rewrite elem_of_nil. lia.
  - rewrite elem_of_cons, IH. destruct (decide (x = y)); intuition lia.
Qed.

Lemma occurrences_NoDup (values : list A) :
  NoDup values <-> forall x, occurrences x values <= 1.
Proof.
  induction values as [|y rest IH]; simpl.
  - split; [intros _ x; lia | intros _; apply NoDup_nil_2].
  - rewrite NoDup_cons, IH, occurrences_elem. split.
    + intros [Hy Hrest] x. specialize (Hrest x).
      destruct (decide (x = y)) as [-> | _]; lia.
    + intros Hall. split.
      * specialize (Hall y). destruct (decide (y = y)); [lia | congruence].
      * intros x. specialize (Hall x). destruct (decide (x = y)); lia.
Qed.

Lemma get_duplicates_elem (values : list A) (x : A) :
  x ∈ get_duplicates values <-> 2 <= occurrences x values.
Proof.
  destruct (Counter_counts values) as [Hkeys Hget].
  unfold get_duplicates. rewrite list_elem_of_fmap. split.
  - intros ([y n] & -> & Hin). simpl.
    apply list_elem_of_In, filter_In in Hin as [Hin Hmany].
    apply list_elem_of_In in Hin. simpl in Hmany. apply Nat.ltb_lt in Hmany.
    rewrite <- Hget, (counter_get_of_item y n _ Hkeys Hin). lia.
  - intros Hmany. rewrite <- Hget in Hmany.
    exists (x, counter_get (Counter values) x). split; [reflexivity |].
    apply list_elem_of_In, filter_In. split.
    + apply list_elem_of_In, counter_item_of_get. lia.
    + simpl. apply Nat.ltb_lt. lia.
Qed.

(** X9: [get_duplicates] returns exactly the values that occur at least
    twice, each of them once. *)
Theorem get_duplicates_exact (values : list A) :
  NoDup (get_duplicates values) /\
  forall x, x ∈ get_duplicates values <-> 2 <= occurrences x values.
Proof.
  split; [| apply get_duplicates_elem].
  apply filter_keys_NoDup, Counter_counts.
Qed.

(** X10: [get_duplicates] returns the empty tuple exactly when no value is
    repeated. *)
Theorem get_duplicates_empty_iff (values : list A) :
  get_duplicates values = [] <-> NoDup values.
Proof.
  rewrite occurrences_NoDup. split.
  - intros Hnone x.
    destruct (le_lt_dec (occurrences x values) 1) as [Hle | Hmany]; [exact Hle |].
    apply get_duplicates_elem in Hmany. rewrite Hnone in Hmany.
    apply elem_of_nil in Hmany. contradiction.
  - intros Hall. apply elem_of_nil_inv. intros x Hin.
    apply get_duplicates_elem in Hin. specialize (Hall x). lia.
Qed.

End Duplicates.

Example get_duplicates_example :
  get_duplicates [3; 1; 3; 2; 1; 3]%nat = [3; 1]%nat.
Proof. reflexivity. Qed.

(** ** Hashing one layer *)

Section LayerFacts.

Variable hash_eth2 : bytes -> bytes.
Variable builtin_hash : pyval -> Z.

Local Open Scope nat_scope.





(** X12: on two and on four chunks the root that [merkleize] computes
    incrementally is the one obtained by hashing layer after layer with
    [hash_layer], with the same number of hash calls. *)
Theorem merkleize_agrees_with_hash_layer (a b c d : bytes) (calls : nat) :
  (exists calls',
      hash_layer hash_eth2 [a; b] calls = Ok ([hash_eth2 (a ++ b)], calls') /\
      merkleize hash_eth2 builtin_hash [a; b] 1 calls =
        Ok (PyBytes (hash_eth2 (a ++ b)), calls')) /\
  (exists layer1 calls1 root calls2,
      hash_layer hash_eth2 [a; b; c; d] calls = Ok (layer1, calls1) /\
      hash_layer hash_eth2 layer1 calls1 = Ok ([root], calls2) /\
      merkleize hash_eth2 builtin_hash [a; b; c; d] 1 calls =
        Ok (PyBytes root, calls2)).
Proof.
  split.
  - exists (S calls). split; vm_compute; reflexivity.
  - exists [hash_eth2 (a ++ b); hash_eth2 (c ++ d)], (S (S calls)),
      (hash_eth2 (hash_eth2 (a ++ b) ++ hash_eth2 (c ++ d))), (S (S (S calls))).
    repeat split; vm_compute; reflexivity.
Qed.

End LayerFacts.

(** ** Packing, whatever the items *)

Section PackAnyItems.

Local Open Scope nat_scope.

(** Once the number of items per chunk is known, [pack] takes all groups
    but the last as they are and pads the last one. *)
Lemma pack_groups (value0 : bytes) (values : list bytes) (per_chunk : nat) :
  0 < per_chunk ->
  get_items_per_chunk (Z.of_nat (length value0)) = Ok (Z.of_nat per_chunk) ->
  let groups := map (@concat byte) (partition per_chunk (value0 :: values) []) in
  exists last_group,
    drop (length groups - 1) groups = [last_group] /\
    length groups = (length (value0 :: values) + (per_chunk - 1)) / per_chunk /\
    pack (value0 :: values) =
      Ok (take (length groups - 1) groups ++ [ljust last_group CHUNK_SIZE x00]).
Proof.
  intros Hper Hipc groups.
  assert (Hcount : length groups =
                     (length (value0 :: values) + (per_chunk - 1)) / per_chunk)
    by (unfold groups; rewrite length_map; apply partition_length, Hper).
  assert (Hnonempty : groups <> []).
  { unfold groups. rewrite partition_step by (lia || discriminate). discriminate. }
  destruct (last_group groups Hnonempty) as [g Hg].
  assert (Hpos : 0 < length groups) by (destruct groups; [congruence | simpl; lia]).
  exists g. split; [exact Hg |]. split; [exact Hcount |].
  unfold pack. rewrite Hipc. cbn [rbind]. rewrite Nat2Z.id. fold groups.
  replace ((Z.of_nat (length (value0 :: values)) + (Z.of_nat per_chunk - 1))
             / Z.of_nat per_chunk - 1)%Z
    with (Z.of_nat (length groups - 1)).
  - unfold take_iter.
    destruct (Z.ltb_spec (Z.of_nat (length groups - 1)) 0); [lia |].
    cbn [rbind]. rewrite Nat2Z.id, Hg. reflexivity.
  - rewrite Hcount, Nat2Z.inj_sub, Nat2Z.inj_div, Nat2Z.inj_add, Nat2Z.inj_sub by lia.
    reflexivity.
Qed.

Lemma get_items_per_chunk_ok (size : Z) (per_chunk : Z) :
  get_items_per_chunk size = Ok per_chunk ->
  (1 <= per_chunk <= Z.of_nat CHUNK_SIZE)%Z /\
  (size = 0 \/ (0 < size /\ per_chunk * size = Z.of_nat CHUNK_SIZE))%Z.
Proof.
  unfold get_items_per_chunk.
  destruct (Z.ltb_spec size 0); [discriminate |].
  destruct (Z.eqb_spec size 0) as [-> | Hne].
  - intros [= <-]. unfold CHUNK_SIZE. lia.
  - destruct (Z.eqb_spec (Z.of_nat CHUNK_SIZE mod size) 0) as [Hmod | Hmod];
      [| discriminate].
    cbn [negb]. destruct (Z.leb_spec size (Z.of_nat CHUNK_SIZE)); [| discriminate].
    intros [= <-].
    pose proof (Z.div_mod (Z.of_nat CHUNK_SIZE) size Hne) as Hdiv.
    rewrite Hmod in Hdiv.
    assert (Hq : (1 <= Z.of_nat CHUNK_SIZE / size)%Z).
    { apply Z.div_le_lower_bound; lia. }
    split; [| right; lia].
    split; [exact Hq |]. apply Z.div_le_upper_bound; [lia |].
    unfold CHUNK_SIZE in *. nia.
Qed.

Lemma get_items_per_chunk_raises (size : Z) (e : exn) :
  get_items_per_chunk size = Raise e ->
  e = ValueError /\ (size < 0 \/ (0 < size /\ ~ (size | Z.of_nat CHUNK_SIZE)))%Z.
Proof.
  unfold get_items_per_chunk.
  destruct (Z.ltb_spec size 0); [intros [= <-]; auto |].
  destruct (Z.eqb_spec size 0); [discriminate |].
  destruct (Z.eqb_spec (Z.of_nat CHUNK_SIZE mod size) 0) as [Hmod | Hmod]; cbn [negb].
  - destruct (Z.leb_spec size (Z.of_nat CHUNK_SIZE)) as [| Hbig]; [discriminate |].
    rewrite Z.mod_small in Hmod by lia. unfold CHUNK_SIZE in Hmod. lia.
  - intros [= <-]. split; [reflexivity |]. right. split; [lia |].
    intros Hdiv. apply Hmod. apply Z.mod_divide; [lia | exact Hdiv].
Qed.

(** X13: [get_items_per_chunk] never reaches its 'unreachable' branch: it
    raises nothing but [ValueError], and a result is between 1 and
    [CHUNK_SIZE] and, for a non-zero size, times the size gives
    [CHUNK_SIZE]. *)
Theorem get_items_per_chunk_outcomes (size : Z) :
  (forall e, get_items_per_chunk size = Raise e -> e = ValueError) /\
  (forall per_chunk,
      get_items_per_chunk size = Ok per_chunk ->
      (1 <= per_chunk <= Z.of_nat CHUNK_SIZE)%Z /\
      (size = 0 \/ per_chunk * size = Z.of_nat CHUNK_SIZE)%Z).
Proof.
  split.
  - intros e He. apply get_items_per_chunk_raises in He as [He _]. exact He.
  - intros per_chunk Hok. apply get_items_per_chunk_ok in Hok as [Hrange Hsize].
    split; [exact Hrange |]. destruct Hsize as [Hzero | [_ Hmul]]; auto.
Qed.

(** X14: [pack] never trips over its own invariants, whatever the items:
    its only failure is the [ValueError] of a first item whose size is not 0
    and does not divide [CHUNK_SIZE]; otherwise it returns, for a non-empty
    input, the number of items divided by the items per chunk, rounded up,
    many chunks. *)
Theorem pack_fails_only_on_item_size (value0 : bytes) (values : list bytes) :
  (forall e, pack (value0 :: values) = Raise e ->
     e = ValueError /\
     0 < length value0 /\ ~ (Z.of_nat (length value0) | Z.of_nat CHUNK_SIZE)%Z) /\
  (forall per_chunk,
     get_items_per_chunk (Z.of_nat (length value0)) = Ok per_chunk ->
     exists chunks,
       pack (value0 :: values) = Ok chunks /\
       Z.of_nat (length chunks) =
         ((Z.of_nat (length (value0 :: values)) + (per_chunk - 1)) / per_chunk)%Z).
Proof.
  split.
  - intros e Hpack.
    destruct (get_items_per_chunk (Z.of_nat (length value0))) as [per_chunk|e0] eqn:Hipc.
    + exfalso. pose proof (get_items_per_chunk_ok _ _ Hipc) as [Hrange _].
      destruct (pack_groups value0 values (Z.to_nat per_chunk)) as (g & _ & _ & Hok).
      * lia.
      * rewrite Z2Nat.id by lia. exact Hipc.
      * rewrite Hok in Hpack. discriminate Hpack.
    + unfold pack in Hpack. rewrite Hipc in Hpack. cbn [rbind] in Hpack.
      injection Hpack as <-.
      apply get_items_per_chunk_raises in Hipc as [-> Hsize].
      split; [reflexivity |]. destruct Hsize as [Hneg | [Hpos Hndiv]]; [lia |].
      split; [lia | exact Hndiv].
  - intros per_chunk Hipc.
    pose proof (get_items_per_chunk_ok _ _ Hipc) as [Hrange _].
    destruct (pack_groups value0 values (Z.to_nat per_chunk)) as (g & Hg & Hcount & Hok).
    + lia.
    + rewrite Z2Nat.id by lia. exact Hipc.
    + eexists. split; [exact Hok |].
      set (groups := map (@concat byte)
                       (partition (Z.to_nat per_chunk) (value0 :: values) [])) in *.
      assert (Hpos : 0 < length groups)
        by (destruct groups; [discriminate Hg | simpl; lia]).
      rewrite length_app, length_take. cbn [length].
      replace (Init.Nat.min (length groups - 1) (length groups) + 1)
        with (length groups) by lia.
      rewrite Hcount, Nat2Z.inj_div, Nat2Z.inj_add, Nat2Z.inj_sub, Z2Nat.id by lia.
      reflexivity.
Qed.

End PackAnyItems.

(** ** Packing: empty items, chunk sizes, and bytes one by one *)

Section PackShapes.

Local Open Scope nat_scope.

Lemma partition_one {A : Type} (xs : list A) (pad : A) :
  partition 1 xs pad = map (fun x => [x]) xs.
Proof.
  induction xs as [|x rest IH]; [apply partition_nil |].
  rewrite partition_step by (lia || discriminate).
  cbn [take drop length map]. rewrite take_0, drop_0, IH. reflexivity.
Qed.

Lemma concat_singletons (values : list bytes) :
  map (@concat byte) (map (fun x => [x]) values) = values.
Proof.
  induction values as [|v rest IH]; [reflexivity |].
  cbn [map concat]. rewrite app_nil_r, IH. reflexivity.
Qed.

(** X15: when the first item is empty, [pack] groups the items one per chunk
    and hands every item but the last through unchanged, whatever its size;
    only the last item is padded to [CHUNK_SIZE]. The chunks it returns
    are then not 32 bytes long in general. *)
Theorem pack_after_empty_first_item (front : list bytes) (last_item : bytes) :
  head (front ++ [last_item]) = Some [] ->
  pack (front ++ [last_item]) = Ok (front ++ [ljust last_item CHUNK_SIZE x00]).
Proof.
  intros Hhead.
  destruct (front ++ [last_item]) as [|value0 values] eqn:Hvalues;
    [discriminate Hhead |].
  injection Hhead as ->.
  destruct (pack_groups [] values 1) as (g & Hg & _ & Hok); [lia | reflexivity |].
  rewrite partition_one, concat_singletons in Hg, Hok.
  rewrite Hok. rewrite <- Hvalues in Hg |- *.
  rewrite length_app in Hg |- *. cbn [length] in Hg |- *.
  replace (length front + 1 - 1) with (length front) in Hg |- * by lia.
  rewrite drop_app_length in Hg. injection Hg as <-.
  rewrite take_app_length. reflexivity.
Qed.

Lemma pack_after_empty_first_item_witness :
  head ([[]; [x01; x02]] ++ [[]]) = Some [] /\
  pack ([[]; [x01; x02]] ++ [[]]) =
    Ok ([[]; [x01; x02]] ++ [ljust [] CHUNK_SIZE x00]).
Proof.
  assert (Hhead : head ([[]; [x01; x02]] ++ [[]]) = Some ([] : bytes))
    by reflexivity.
  split; [exact Hhead |].
  exact (pack_after_empty_first_item [[]; [x01; x02]] [] Hhead).
Defined.

Lemma chunk_slices_lengths (b : bytes) :
  Forall (fun chunk => length chunk = CHUNK_SIZE) (chunk_slices b).
Proof.
  apply slices_full_length.
  pose proof (Nat.div_mod_eq (length b) CHUNK_SIZE). lia.
Qed.

(** X16: for a non-empty sequence of items of one size [s > 0] that divides
    [CHUNK_SIZE], every chunk that [pack] returns has exactly [CHUNK_SIZE]
    bytes, and the chunks glued together are the items glued together
    followed by fewer than [CHUNK_SIZE] zero bytes. *)
Theorem pack_uniform_chunks (items : list bytes) (s : nat) :
  items <> [] -> 0 < s -> CHUNK_SIZE mod s = 0 ->
  Forall (fun item => length item = s) items ->
  exists chunks padding,
    pack items = Ok chunks /\
    Forall (fun chunk => length chunk = CHUNK_SIZE) chunks /\
    concat chunks = concat items ++ replicate padding x00 /\
    padding < CHUNK_SIZE.
Proof.
  intros Hne Hs Hmod Huniform.
  destruct (pack_uniform items s Hne Hs Hmod Huniform) as [Hpack _].
  exists (pack_by_concatenation items),
    ((CHUNK_SIZE - length (concat items) mod CHUNK_SIZE) mod CHUNK_SIZE).
  split; [exact Hpack |]. split; [apply chunk_slices_lengths |].
  split; [| apply Nat.mod_upper_bound; discriminate].
  unfold pack_by_concatenation, chunk_slices.
  rewrite concat_slices, take_ge; [reflexivity |].
  pose proof (Nat.div_mod_eq (length (pad_to_chunk_multiple (concat items))) CHUNK_SIZE)
    as Hdiv.
  assert (Hmultiple : length (pad_to_chunk_multiple (concat items)) mod CHUNK_SIZE = 0).
  { unfold pad_to_chunk_multiple. rewrite length_app, length_replicate.
    set (len := length (concat items)).
    pose proof (Nat.div_mod_eq len CHUNK_SIZE) as Hlen.
    pose proof (Nat.mod_upper_bound len CHUNK_SIZE ltac:(discriminate)) as Hr.
    destruct (Nat.eq_dec (len mod CHUNK_SIZE) 0) as [Hzero | Hnz].
    - rewrite Hzero, Nat.sub_0_r, Nat.Div0.mod_same, Nat.add_0_r. exact Hzero.
    - rewrite (Nat.mod_small (CHUNK_SIZE - len mod CHUNK_SIZE)) by lia.
      replace (len + (CHUNK_SIZE - len mod CHUNK_SIZE))
        with ((len / CHUNK_SIZE + 1) * CHUNK_SIZE) by lia.
      apply Nat.Div0.mod_mul. }
  lia.
Qed.

Lemma pack_uniform_chunks_witness :
  let items := [replicate 16 x01; replicate 16 x02; replicate 16 x03] in
  exists chunks padding,
    pack items = Ok chunks /\
    Forall (fun chunk => length chunk = CHUNK_SIZE) chunks /\
    concat chunks = concat items ++ replicate padding x00 /\
    padding < CHUNK_SIZE.
Proof.
  apply (pack_uniform_chunks
           [replicate 16 x01; replicate 16 x02; replicate 16 x03] 16).
  - discriminate.
  - lia.
  - reflexivity.
  - repeat constructor.
Defined.

End PackShapes.

(** ** Packing a byte string, seen as slicing and as packing single bytes *)

Section PackBytesShapes.

Local Open Scope nat_scope.

Lemma pack_bytes_as_slices (b : bytes) :
  b <> [] -> pack_bytes b = chunk_slices (pad_to_chunk_multiple b).
Proof.
  intros Hne. unfold pack_bytes.
  assert (Hpos : 0 < length b) by (destruct b; [congruence | simpl; lia]).
  destruct (Nat.eqb_spec (length b) 0) as [Hzero | _]; [lia |].
  pose proof (Nat.div_mod_eq (length b) CHUNK_SIZE) as Hdiv.
  pose proof (Nat.mod_upper_bound (length b) CHUNK_SIZE ltac:(discriminate)) as Hr.
  set (q := length b / CHUNK_SIZE) in *. set (r := length b mod CHUNK_SIZE) in *.
  unfold pad_to_chunk_multiple. fold r.
  destruct (Nat.eqb_spec r 0) as [Hfull | Hpart].
  - rewrite Hfull, Nat.sub_0_r, Nat.Div0.mod_same. cbn [replicate].
    rewrite app_nil_r. reflexivity.
  - rewrite (Nat.mod_small (CHUNK_SIZE - r)) by lia.
    unfold chunk_slices. rewrite length_app, length_replicate.
    replace (length b + (CHUNK_SIZE - r)) with ((q + 1) * CHUNK_SIZE) by lia.
    rewrite Nat.div_mul by discriminate.
    rewrite Nat.add_1_r, seq_S, map_app. cbn [map Nat.add]. f_equal.
    + apply map_ext_in. intros i Hi. apply in_seq in Hi.
      rewrite !slice_chunk.
      assert ((i + 1) * CHUNK_SIZE <= q * CHUNK_SIZE) by (apply Nat.mul_le_mono_r; lia).
      rewrite drop_app_le by lia.
      rewrite take_app_le by (rewrite length_drop; lia). reflexivity.
    + f_equal. rewrite slice_chunk, drop_app_le by lia.
      unfold ljust. rewrite length_drop.
      replace (length b - q * CHUNK_SIZE) with r by lia.
      symmetry. apply take_ge. rewrite length_app, length_drop, length_replicate. lia.
Qed.

(** X17: [pack_bytes] cuts the byte string, zero-padded on the right to a
    multiple of [CHUNK_SIZE], into consecutive 32-byte slices, so it returns
    the length divided by 32, rounded up, many chunks; and the one chunk of
    zeros on the empty string. *)
Theorem pack_bytes_slices_padded (b : bytes) :
  (b <> [] ->
   pack_bytes b = chunk_slices (pad_to_chunk_multiple b) /\
   length (pack_bytes b) = (length b + 31) / 32) /\
  pack_bytes [] = [replicate 32 x00].
Proof.
  split; [| reflexivity]. intros Hne.
  split; [apply pack_bytes_as_slices, Hne |].
  assert (Hpos : 0 < length b) by (destruct b; [congruence | simpl; lia]).
  unfold pack_bytes.
  destruct (Nat.eqb_spec (length b) 0) as [Hzero | _]; [lia |].
  pose proof (Nat.div_mod_eq (length b) CHUNK_SIZE) as Hdiv.
  pose proof (Nat.mod_upper_bound (length b) CHUNK_SIZE ltac:(discriminate)) as Hr.
  unfold CHUNK_SIZE in *.
  destruct (Nat.eqb_spec (length b mod 32) 0) as [Hfull | Hpart].
  - rewrite length_map, length_seq.
    apply (Nat.div_unique _ _ _ 31); lia.
  - rewrite length_app, length_map, length_seq. cbn [length].
    apply (Nat.div_unique _ _ _ (length b mod 32 - 1)); lia.
Qed.

(** X18: packing the bytes of a string one by one, as items of size 1, gives
    the chunks of [pack_bytes] on the string, the empty string included. *)
Theorem pack_single_bytes_is_pack_bytes (b : bytes) :
  pack (map (fun x => [x]) b) = Ok (pack_bytes b).
Proof.
  destruct b as [|x rest]; [reflexivity |].
  assert (Hne : x :: rest <> []) by discriminate.
  rewrite pack_bytes_as_slices by exact Hne.
  destruct (pack_uniform (map (fun x => [x]) (x :: rest)) 1) as [Hpack _].
  - discriminate.
  - lia.
  - reflexivity.
  - apply Forall_fmap, Forall_true. intros y. reflexivity.
  - rewrite Hpack. unfold pack_by_concatenation. do 3 f_equal.
    clear. induction (x :: rest) as [|y l IH]; [reflexivity |].
    cbn [map concat app]. rewrite IH. reflexivity.
Qed.

End PackBytesShapes.

(** ** Length mixing and pad targets, at the edges *)

Section TreeEdges.

Variable hash_eth2 : bytes -> bytes.
Variable builtin_hash : pyval -> Z.

Lemma mix_in_length_in_range (root : bytes) (len : Z) (calls : nat) :
  0 <= len < 2 ^ 256 ->
  mix_in_length hash_eth2 root len calls =
    Ok (PyBytes (hash_eth2 (root ++ le_digits 32 len)), S calls).
Proof.
  intros Hlen. unfold mix_in_length, hbind, hlift.
  rewrite to_bytes_little_ok by exact Hlen. reflexivity.
Qed.


(** X20: two different lengths are never mixed into a root through the same
    hash input: for both in range, [mix_in_length] hashes two different byte
    strings of the same length, with one hash call each. *)
Theorem mix_in_length_separates_lengths (root : bytes) (len1 len2 : Z) (calls : nat) :
  0 <= len1 < 2 ^ 256 -> 0 <= len2 < 2 ^ 256 -> len1 <> len2 ->
  exists input1 input2,
    input1 <> input2 /\
    length input1 = length input2 /\
    mix_in_length hash_eth2 root len1 calls =
      Ok (PyBytes (hash_eth2 input1), S calls) /\
    mix_in_length hash_eth2 root len2 calls =
      Ok (PyBytes (hash_eth2 input2), S calls).
Proof.
  intros H1 H2 Hne.
  exists (root ++ le_digits 32 len1), (root ++ le_digits 32 len2).
  split.
  - intros Heq. apply app_inv_head in Heq. apply Hne.
    rewrite <- (to_bytes_little_roundtrip len1 32) by exact H1.
    rewrite <- (to_bytes_little_roundtrip len2 32) by exact H2.
    rewrite Heq. reflexivity.
  - split; [rewrite !length_app, !le_digits_length; reflexivity |].
    split; apply mix_in_length_in_range; assumption.
Qed.

Lemma bit_length_below_power (n : Z) (depth : nat) :
  0 <= n < 2 ^ Z.of_nat depth -> (bit_length n <= depth)%nat.
Proof.
  intros [Hlow Hhigh]. unfold bit_length.
  destruct (Z.eqb_spec n 0); [lia |].
  rewrite Z.abs_eq by lia.
  assert (Z.log2 n < Z.of_nat depth) by (apply Z.log2_lt_pow2; lia).
  lia.
Qed.

(** X21: a pad target between 1 and the next power of two of the chunk count
    changes nothing: [merkleize] does exactly what it does with the default
    pad target 1. *)
Theorem merkleize_pad_target_within_chunks
    (chunks : list bytes) (pad_for : Z) (calls : nat) :
  1 <= pad_for <= get_next_power_of_two (Z.of_nat (length chunks)) ->
  merkleize hash_eth2 builtin_hash chunks pad_for calls =
    merkleize hash_eth2 builtin_hash chunks 1 calls.
Proof.
  intros [Hlow Hhigh]. unfold merkleize.
  set (chunk_depth := bit_length (Z.max (Z.of_nat (length chunks) - 1) 0)).
  assert (Hdepth : (bit_length (pad_for - 1) <= chunk_depth)%nat).
  { apply bit_length_below_power. split; [lia |].
    unfold get_next_power_of_two in Hhigh. unfold chunk_depth.
    destruct (Z.leb_spec (Z.of_nat (length chunks)) 0) as [Hzero | Hpos].
    - assert (Hone : pad_for - 1 = 0) by lia. rewrite Hone.
      apply Z.pow_pos_nonneg; lia.
    - replace (Z.max (Z.of_nat (length chunks) - 1) 0)
        with (Z.of_nat (length chunks) - 1) by lia.
      lia. }
  replace (Nat.max chunk_depth (bit_length (pad_for - 1))) with chunk_depth by lia.
  replace (Nat.max chunk_depth (bit_length (1 - 1))) with chunk_depth
    by (change (bit_length (1 - 1)) with 0%nat; lia).
  reflexivity.
Qed.

(** X22: a pad target of zero or below is not rejected: since the bit length
    of a negative integer is that of its absolute value, [merkleize] treats
    the pad target [pad_for] exactly as it treats [2 - pad_for]. *)
Theorem merkleize_pad_target_mirrored
    (chunks : list bytes) (pad_for : Z) (calls : nat) :
  merkleize hash_eth2 builtin_hash chunks pad_for calls =
    merkleize hash_eth2 builtin_hash chunks (2 - pad_for) calls.
Proof.
  unfold merkleize.
  assert (Hbits : bit_length (2 - pad_for - 1) = bit_length (pad_for - 1)).
  { unfold bit_length.
    destruct (Z.eqb_spec (pad_for - 1) 0) as [Hzero | Hnz];
      destruct (Z.eqb_spec (2 - pad_for - 1) 0) as [Hzero' | Hnz']; try lia.
    replace (2 - pad_for - 1) with (- (pad_for - 1)) by lia.
    rewrite Z.abs_opp. reflexivity. }
  rewrite Hbits. reflexivity.
Qed.

End TreeEdges.

Lemma mix_in_length_separates_lengths_witness :
  0 <= 0 < 2 ^ 256 /\ 0 <= 1 < 2 ^ 256 /\ 0 <> 1 /\
  exists input1 input2,
    input1 <> input2 /\
    length input1 = length input2 /\
    mix_in_length sample_hash_eth2 (replicate 32 xaa) 0 0%nat =
      Ok (PyBytes (sample_hash_eth2 input1), 1%nat) /\
    mix_in_length sample_hash_eth2 (replicate 32 xaa) 1 0%nat =
      Ok (PyBytes (sample_hash_eth2 input2), 1%nat).
Proof.
  assert (H0 : 0 <= 0 < 2 ^ 256) by (split; [lia | reflexivity]).
  assert (H1 : 0 <= 1 < 2 ^ 256) by (split; [lia | reflexivity]).
  assert (Hne : 0 <> 1) by lia.
  split; [exact H0 |]. split; [exact H1 |]. split; [exact Hne |].
  exact (mix_in_length_separates_lengths sample_hash_eth2 (replicate 32 xaa)
           0 1 0%nat H0 H1 Hne).
Defined.

Lemma merkleize_pad_target_within_chunks_witness :
  let chunks := [replicate 32 x01; replicate 32 x02; replicate 32 x03] in
  1 <= 4 <= get_next_power_of_two (Z.of_nat (length chunks)) /\
  merkleize sample_hash_eth2 sample_builtin_hash chunks 4 0%nat =
    merkleize sample_hash_eth2 sample_builtin_hash chunks 1 0%nat.
Proof.
  assert (Hpad : 1 <= 4 <= get_next_power_of_two
                   (Z.of_nat (length [replicate 32 x01; replicate 32 x02;
                                      replicate 32 x03]))).
  { split; [lia | vm_compute; discriminate]. }
  split; [exact Hpad |].
  exact (merkleize_pad_target_within_chunks sample_hash_eth2 sample_builtin_hash
           [replicate 32 x01; replicate 32 x02; replicate 32 x03] 4 0%nat Hpad).
Defined.
